(** * Reshard-function registry and SOT compile cache

    A shallow embedding of
    - [python/paddle/distributed/auto_parallel/static/reshard_funcs/reshard_func_register.py]
    - [python/paddle/jit/sot/symbolic/compile_cache.py]
    together with the parts of the reshard engine that these files call into
    and that the design document describes. *)

From Stdlib Require Import ZArith Lia.
From stdpp Require Import base list gmap strings.

Open Scope Z_scope.

(** ** Results of fallible operations *)

Inductive Result (E A : Type) : Type :=
| Ok (a : A)
| Err (e : E).
Arguments Ok {E A} a.
Arguments Err {E A} e.

Definition is_ok {E A} (r : Result E A) : bool :=
  match r with Ok _ => true | Err _ => false end.

(** ** A state monad, used for code that threads a module-level global *)

Definition State (S A : Type) : Type := S -> A * S.

#[global] Instance state_ret {S} : MRet (State S) :=
  fun A (a : A) s => (a, s).
#[global] Instance state_bind {S} : MBind (State S) :=
  fun A B (k : A -> State S B) (m : State S A) s =>
    let '(a, s') := m s in k a s'.
Definition st_modify {S} (f : S -> S) : State S unit := fun s => (tt, f s).
Definition st_exec {S A} (m : State S A) (s : S) : S := snd (m s).

(* ===================================================================== *)
(** * The reshard engine                                                  *)
(* ===================================================================== *)

Module Reshard.

(** ** Data model *)

(** Modelled from the spec: the DeviceMesh of the data model, "an
    N-dimensional logical arrangement of process/device identifiers, with a
    stable total ordering of processes": the extent of every mesh dimension
    and the process ids in their order.  Meshes are compared by value. *)
Record DeviceMesh : Type := {
  mesh_shape : list nat;
  process_ids : list nat
}.

(** Modelled from the spec: the DistAttr of the data model, the placement
    of one tensor.  [dims_mapping] has one entry per tensor dimension, [None] for an unsharded dimension and [Some m] for a dimension
    sharded along mesh dimension [m]; [partial_dims] holds the mesh
    dimensions along which the tensor is only partially summed. *)
Record DistAttr : Type := {
  mesh : DeviceMesh;
  dims_mapping : list (option nat);
  partial_dims : gset nat
}.

#[global] Instance DeviceMesh_eq_dec : EqDecision DeviceMesh.
Proof. solve_decision. Defined.
#[global] Instance DistAttr_eq_dec : EqDecision DistAttr.
Proof. solve_decision. Defined.

(** Modelled from the spec: the error taxonomy (section 7). *)
Inductive ReshardError : Type :=
| NoSuitableReshardStrategy
| ShapeMismatch
| UnshardableDimension
| UnreachablePeer
| PartialOverlapUnsupported.

#[global] Instance ReshardError_eq_dec : EqDecision ReshardError.
Proof. solve_decision. Defined.

(** ** The registry: an ordered list of strategies *)

Section Registry.
(** A strategy is a value with a suitability test on a (source, target)
    pair; the test belongs to the strategy classes, which the registry
    treats as opaque. *)
Context {Strategy : Type}.
Variable is_suitable : Strategy -> DistAttr -> DistAttr -> bool.

(** Modelled from the spec: [register] of the registry
    (base_reshard_func.register_reshard_func), "appends a strategy to the
    ordered list". *)
Definition register (strategy : Strategy) (registry : list Strategy)
  : list Strategy :=
  registry ++ [strategy].

(** Modelled from the spec: [find] of the registry, "scans strategies in
    registration order, returns the first whose suitability predicate
    accepts the pair; fails with NoSuitableReshardStrategy if none match". *)
Fixpoint find (registry : list Strategy)
    (source_attr target_attr : DistAttr) (tensor_shape : list Z)
  : Result ReshardError Strategy :=
  match registry with
  | [] => Err NoSuitableReshardStrategy
  | strategy :: rest =>
      if is_suitable strategy source_attr target_attr
      then Ok strategy
      else find rest source_attr target_attr tensor_shape
  end.

(** Every strategy of a list rejects the pair. *)
Definition all_reject (l : list Strategy) (src dst : DistAttr) : Prop :=
  Forall (fun s => is_suitable s src dst = false) l.

(** [s] is the first strategy of [registry], in order, that accepts. *)
Definition first_accepting (registry : list Strategy) (src dst : DistAttr)
    (s : Strategy) : Prop :=
  exists earlier later,
    registry = earlier ++ s :: later
    /\ all_reject earlier src dst
    /\ is_suitable s src dst = true.
End Registry.

(** ** Startup registration (reshard_func_register.py) *)

(** The strategy classes imported by reshard_func_register.py.  A registered
    strategy is a stateless instance of one of them. *)
Inductive ReshardFunction : Type :=
| PToRReshardFunction
| PToRReshardFunctionCrossMesh
| RToSReshardFunction
| RToSReshardFunctionCrossMesh
| SToRReshardFunction
| SToRReshardFunctionCrossMesh
| SameStatusReshardFunction.

#[global] Instance ReshardFunction_eq_dec : EqDecision ReshardFunction.
Proof. solve_decision. Defined.

(** Modelled from the spec: the process-wide registry state (the
    module-level list of base_reshard_func that [register_reshard_func]
    mutates), and (ghost) the arguments of every call of
    [register_reshard_func] so far, oldest first. *)
Record Globals : Type := {
  g_reshard_func_list : list ReshardFunction;
  register_log : list ReshardFunction
}.

Definition RegistryM : Type -> Type := State Globals.

(** Modelled from the spec: [register_reshard_func(strategy)] of
    base_reshard_func, which registers the strategy with the registry. *)
Definition register_reshard_func (f : ReshardFunction) : RegistryM unit :=
  st_modify (fun g =>
    {| g_reshard_func_list := register f (g_reshard_func_list g);
       register_log := register_log g ++ [f] |}).

(** [def register_reshard_funcs()], lines 31-38. *)
Definition register_reshard_funcs : RegistryM unit :=
  register_reshard_func PToRReshardFunction ;;
  register_reshard_func PToRReshardFunctionCrossMesh ;;
  register_reshard_func RToSReshardFunction ;;
  register_reshard_func RToSReshardFunctionCrossMesh ;;
  register_reshard_func SameStatusReshardFunction ;;
  register_reshard_func SToRReshardFunction ;;
  register_reshard_func SToRReshardFunctionCrossMesh.

(** [register_reshard_funcs()] called [n] times in a row. *)
Fixpoint register_reshard_funcs_times (n : nat) : RegistryM unit :=
  match n with
  | O => mret tt
  | S n' => register_reshard_funcs ;; register_reshard_funcs_times n'
  end.

(** The body of the module: the imports and the [def] bind names and leave
    the registry alone; line 41 is the only statement that runs code. *)
Definition module_body : RegistryM unit := register_reshard_funcs.

(** Modelled from the spec: before anything is registered the registry is
    the empty list (the initial value of the global in base_reshard_func). *)
Definition initial_globals : Globals :=
  {| g_reshard_func_list := []; register_log := [] |}.

(** The seven calls of [register_reshard_funcs], in source order. *)
Definition seven_in_order : list ReshardFunction :=
  [ PToRReshardFunction; PToRReshardFunctionCrossMesh;
    RToSReshardFunction; RToSReshardFunctionCrossMesh;
    SameStatusReshardFunction;
    SToRReshardFunction; SToRReshardFunctionCrossMesh ].

(** The registry once the module has been imported. *)
Definition startup_registry : list ReshardFunction :=
  g_reshard_func_list (st_exec module_body initial_globals).

(** Position of the first occurrence of a strategy in a registry. *)
Fixpoint index_of (f : ReshardFunction) (l : list ReshardFunction)
  : option nat :=
  match l with
  | [] => None
  | g :: rest =>
      if decide (f = g) then Some 0%nat else S <$> index_of f rest
  end.

(** ** The process: import caching and dispatch *)

(** A process holds the globals above and whether the registration module
    is already in the interpreter's module table. *)
Record Process : Type := {
  module_loaded : bool;
  globals : Globals
}.

Definition process_start : Process :=
  {| module_loaded := false; globals := initial_globals |}.

(** The process after its first import of the registration module. *)
Definition process_started : Process :=
  {| module_loaded := true;
     globals := {| g_reshard_func_list := seven_in_order;
                   register_log := seven_in_order |} |}.

(** What a process can do with the registry.  It imports the registration
    module (any number of times, from any importer), it reloads that module,
    it calls [register_reshard_funcs] or [register_reshard_func] itself (both
    are ordinary public functions), and it dispatches. *)
Inductive ProcessEvent : Type :=
| ImportRegisterModule
| ReloadRegisterModule
| CallRegisterReshardFuncs
| CallRegisterReshardFunc (f : ReshardFunction)
| FindStrategy (source_attr target_attr : DistAttr) (tensor_shape : list Z).

#[global] Instance ProcessEvent_eq_dec : EqDecision ProcessEvent.
Proof. solve_decision. Defined.

(** An import statement runs the module body only when the module is not
    yet in the module table. *)
Definition import_register_module (p : Process) : Process :=
  if module_loaded p then p
  else {| module_loaded := true;
          globals := st_exec module_body (globals p) |}.

(** A reload runs the body of the module again.  The caller holds the module
    object, so it has imported the module before. *)
Definition reload_register_module (p : Process) : Process :=
  let p' := import_register_module p in
  {| module_loaded := true;
     globals := st_exec module_body (globals p') |}.

(** A caller of [register_reshard_funcs] has imported the module that
    defines it; the call itself is not guarded by anything. *)
Definition call_register_reshard_funcs (p : Process) : Process :=
  let p' := import_register_module p in
  {| module_loaded := true;
     globals := st_exec register_reshard_funcs (globals p') |}.

(** [register_reshard_func] belongs to base_reshard_func and can be called
    whether or not the registration module has been imported. *)
Definition call_register_reshard_func (f : ReshardFunction) (p : Process)
  : Process :=
  {| module_loaded := module_loaded p;
     globals := st_exec (register_reshard_func f) (globals p) |}.

(** One event.  Dispatch reads the registry and leaves it as it is. *)
Definition process_step (p : Process) (e : ProcessEvent) : Process :=
  match e with
  | ImportRegisterModule => import_register_module p
  | ReloadRegisterModule => reload_register_module p
  | CallRegisterReshardFuncs => call_register_reshard_funcs p
  | CallRegisterReshardFunc f => call_register_reshard_func f p
  | FindStrategy _ _ _ => p
  end.

Definition process_run (p : Process) (events : list ProcessEvent) : Process :=
  fold_left process_step events p.

(** The events that only import or dispatch. *)
Definition imports_or_dispatches (e : ProcessEvent) : bool :=
  match e with
  | ImportRegisterModule | FindStrategy _ _ _ => true
  | _ => false
  end.

(** What an event registers in a process that has imported the module. *)
Definition registered_by (e : ProcessEvent) : list ReshardFunction :=
  match e with
  | ImportRegisterModule | FindStrategy _ _ _ => []
  | ReloadRegisterModule | CallRegisterReshardFuncs => seven_in_order
  | CallRegisterReshardFunc f => [f]
  end.

(** ** Slice sizes of Replicated-to-Sharded *)

(** The ceiling of [len / k], for a positive [k]. *)
Definition ceil_div (len k : Z) : Z := (len + k - 1) / k.

(** Modelled from the spec: the size of the last slice when the axis length
    is not evenly divisible by [k], "length - (k-1) * ceil(length/k)". *)
Definition last_slice_size (len k : Z) : Z := len - (k - 1) * ceil_div len k.

(** Modelled from the spec: the slice sizes of the Replicated-to-Sharded
    strategy (r_to_s_reshard_func), for a tensor axis of length [len] split
    over a mesh dimension of size [k].  An evenly divisible axis gives [k]
    equal slices; otherwise "the last slice absorbs the remainder" and "it
    is an error, UnshardableDimension, if this would produce a
    zero-or-negative-size slice". *)
Definition slice_sizes (len k : Z) : Result ReshardError (list Z) :=
  if decide (len mod k = 0) then Ok (replicate (Z.to_nat k) (len / k))
  else if decide (last_slice_size len k <= 0) then Err UnshardableDimension
  else Ok (replicate (Z.to_nat (k - 1)) (ceil_div len k)
           ++ [last_slice_size len k]).

Definition sum_sizes (sizes : list Z) : Z := foldr Z.add 0 sizes.

(** ** The communication layer *)

(** Modelled from the spec: the communication layer (section 6).  The
    buffers and the local and collective primitives are consumed from
    outside the engine: the shape of a buffer, [local_slice(buffer, axis,
    index, count)] (the [count] entries from position [index] on along
    [axis]), [local_concat(buffers, axis)], the element-wise sum that
    [all_reduce(.., op=sum)] applies, and whether a channel from one process
    to another can be resolved for [send]/[recv]. *)
Class CommLayer : Type := {
  Buffer : Type;
  buffer_shape : Buffer -> list Z;
  local_slice : Buffer -> nat -> Z -> Z -> Buffer;
  local_concat : list Buffer -> nat -> Buffer;
  buffer_add : Buffer -> Buffer -> Buffer;
  channel : nat -> nat -> bool
}.

(** ** Ranks and mesh coordinates *)

(** Modelled from the spec: the "stable total ordering of processes" of a
    mesh.  Processes are numbered by rank, the position of their id in
    [process_ids]; coordinates are row-major. *)
Definition nprocs (M : DeviceMesh) : nat := foldr Nat.mul 1%nat (mesh_shape M).

Definition mesh_dim_size (M : DeviceMesh) (m : nat) : nat :=
  default 1%nat (mesh_shape M !! m).

Definition stride (M : DeviceMesh) (m : nat) : nat :=
  foldr Nat.mul 1%nat (drop (S m) (mesh_shape M)).

(** The coordinate of rank [r] along mesh dimension [m]. *)
Definition coord_at (M : DeviceMesh) (m : nat) (r : nat) : nat :=
  ((r / stride M m) mod mesh_dim_size M m)%nat.

(** The rank that differs from [r] only in having coordinate [j] along
    mesh dimension [m]. *)
Definition peer (M : DeviceMesh) (m : nat) (r j : nat) : nat :=
  (r - coord_at M m r * stride M m + j * stride M m)%nat.

(** Every mesh dimension has at least one process. *)
Definition mesh_wf (M : DeviceMesh) : Prop :=
  Forall (fun k => (1 <= k)%nat) (mesh_shape M).

(** Modelled from the spec: the invariants of a DistAttr (section 3): the
    mesh dimensions it names exist, "at most
    one tensor dimension maps to a given mesh dimension", and a mesh
    dimension "cannot be simultaneously in partial_dims and referenced by
    dims_mapping". *)
Definition attr_wf (A : DistAttr) : Prop :=
  mesh_wf (mesh A)
  /\ (forall m, Some m ∈ dims_mapping A ->
        (m < length (mesh_shape (mesh A)))%nat /\ m ∉ partial_dims A)
  /\ (forall m, m ∈ partial_dims A -> (m < length (mesh_shape (mesh A)))%nat)
  /\ (forall a a' m, dims_mapping A !! a = Some (Some m) ->
        dims_mapping A !! a' = Some (Some m) -> a = a').

(** ** Placement kinds *)

Definition no_partial (A : DistAttr) : bool :=
  bool_decide (partial_dims A = ∅).

Definition count_shards (dm : list (option nat)) : nat :=
  length (filter is_Some dm).

(** The first sharded tensor axis and the mesh dimension it is sharded
    along, counting axes from [a]. *)
Fixpoint find_shard (dm : list (option nat)) (a : nat) : option (nat * nat) :=
  match dm with
  | [] => None
  | Some m :: _ => Some (a, m)
  | None :: rest => find_shard rest (S a)
  end.

(** Modelled from the spec: Replicated, "every process holds an identical,
    complete copy": nothing sharded, nothing partial. *)
Definition is_replicated (A : DistAttr) : bool :=
  no_partial A && bool_decide (count_shards (dims_mapping A) = 0%nat).

(** Modelled from the spec: Sharded, as the strategies of 4.4 and 4.5 take
    it: one shard assignment, nothing partial. *)
Definition is_sharded (A : DistAttr) : bool :=
  no_partial A && bool_decide (count_shards (dims_mapping A) = 1%nat).

(** Modelled from the spec: the mesh relation of 4.2.  Same mesh: the
    meshes are equal. *)
Definition same_mesh (A B : DistAttr) : bool :=
  bool_decide (mesh A = mesh B).

(** Modelled from the spec: cross-mesh (4.7), "source mesh and target mesh
    have different ... process membership". *)
Definition cross_mesh (A B : DistAttr) : bool :=
  bool_decide ((list_to_set (process_ids (mesh A)) : gset nat)
               ≠ list_to_set (process_ids (mesh B))).

(** What a mesh dimension stands for independently of the logical mesh
    shape: how many processes it spans and how far apart their ranks are. *)
Definition dim_descr (M : DeviceMesh) (m : nat) : nat * nat :=
  (mesh_dim_size M m, stride M m).

Definition shard_descr (A : DistAttr) : list (option (nat * nat)) :=
  (fun e : option nat => dim_descr (mesh A) <$> e) <$> dims_mapping A.

Definition partial_descr (A : DistAttr) : gset (nat * nat) :=
  set_map (dim_descr (mesh A)) (partial_dims A).

(** Modelled from the spec: the two attrs "differ only in that the mesh
    differs but represents the same process group under a different logical
    mesh shape with an equivalent per-dimension mapping" (4.6). *)
Definition relabelled (A B : DistAttr) : bool :=
  bool_decide (mesh A ≠ mesh B)
  && bool_decide (process_ids (mesh A) = process_ids (mesh B))
  && bool_decide (shard_descr A = shard_descr B)
  && bool_decide (partial_descr A = partial_descr B).

(** Modelled from the spec: the placement-kind transitions of 4.3, 4.4 and
    4.5, without their condition on the meshes. *)
Definition p_to_r_kind (src dst : DistAttr) : bool :=
  negb (no_partial src) && no_partial dst
  && bool_decide (dims_mapping dst = dims_mapping src).

Definition r_to_s_kind (src dst : DistAttr) : bool :=
  is_replicated src && is_sharded dst
  && bool_decide (length (dims_mapping src) = length (dims_mapping dst)).

Definition s_to_r_kind (src dst : DistAttr) : bool := r_to_s_kind dst src.

(** Modelled from the spec: the suitability predicates of the seven strategy
    classes (4.3 to 4.7); each checks one placement-kind transition and one
    mesh relation. *)
Definition is_suitable (f : ReshardFunction) (src dst : DistAttr) : bool :=
  match f with
  | PToRReshardFunction => p_to_r_kind src dst && same_mesh src dst
  | PToRReshardFunctionCrossMesh => p_to_r_kind src dst && cross_mesh src dst
  | RToSReshardFunction => r_to_s_kind src dst && same_mesh src dst
  | RToSReshardFunctionCrossMesh => r_to_s_kind src dst && cross_mesh src dst
  | SToRReshardFunction => s_to_r_kind src dst && same_mesh src dst
  | SToRReshardFunctionCrossMesh => s_to_r_kind src dst && cross_mesh src dst
  | SameStatusReshardFunction =>
      bool_decide (src = dst) || relabelled src dst
  end.

(** What a strategy's suitability test says about the pair. *)
Inductive Transition (A B : DistAttr) : ReshardFunction -> Prop :=
| TrPToR :
    no_partial A = false -> no_partial B = true -> mesh A = mesh B ->
    Transition A B PToRReshardFunction
| TrPToRCross :
    no_partial A = false -> no_partial B = true ->
    mesh A <> mesh B -> process_ids (mesh A) <> process_ids (mesh B) ->
    Transition A B PToRReshardFunctionCrossMesh
| TrRToS :
    is_replicated A = true -> is_sharded B = true ->
    length (dims_mapping A) = length (dims_mapping B) ->
    mesh A = mesh B ->
    Transition A B RToSReshardFunction
| TrRToSCross :
    is_replicated A = true -> is_sharded B = true ->
    length (dims_mapping A) = length (dims_mapping B) ->
    mesh A <> mesh B -> process_ids (mesh A) <> process_ids (mesh B) ->
    Transition A B RToSReshardFunctionCrossMesh
| TrSToR :
    is_sharded A = true -> is_replicated B = true ->
    length (dims_mapping A) = length (dims_mapping B) ->
    mesh A = mesh B ->
    Transition A B SToRReshardFunction
| TrSToRCross :
    is_sharded A = true -> is_replicated B = true ->
    length (dims_mapping A) = length (dims_mapping B) ->
    mesh A <> mesh B -> process_ids (mesh A) <> process_ids (mesh B) ->
    Transition A B SToRReshardFunctionCrossMesh
| TrSame :
    A = B \/ (mesh A <> mesh B /\ process_ids (mesh A) = process_ids (mesh B)) ->
    Transition A B SameStatusReshardFunction.

Section Engine.
Context `{CL : CommLayer}.

(** ** Distributed tensors *)

(** Modelled from the spec: the DistTensor of the data model, as the
    processes of its mesh hold it together: its attr, its logical shape, and the local buffer of the process of every
    rank. *)
Record DistTensor : Type := {
  attr : DistAttr;
  shape : list Z;
  locals : nat -> Buffer
}.

Definition axis_len (b : Buffer) (a : nat) : Z := default 0 (buffer_shape b !! a).

(** Modelled from the spec: [all_gather(buffer, mesh_dim)] at rank [r]: the buffers of the processes
    along mesh dimension [m], in ascending coordinate order. *)
Definition all_gather (M : DeviceMesh) (loc : nat -> Buffer) (m r : nat)
  : list Buffer :=
  (fun j => loc (peer M m r j)) <$> seq 0 (mesh_dim_size M m).

Definition reduce_sum (own : Buffer) (parts : list Buffer) : Buffer :=
  match parts with
  | [] => own
  | p :: ps => fold_left buffer_add ps p
  end.

(** Where slice [i] starts, given the slice sizes. *)
Definition slice_offset (sizes : list Z) (i : nat) : Z := sum_sizes (take i sizes).

(** The slices of a buffer along [a], one per size, in order. *)
Definition slices (b : Buffer) (a : nat) (sizes : list Z) : list Buffer :=
  (fun i => local_slice b a (slice_offset sizes i) (default 0 (sizes !! i)))
    <$> seq 0 (length sizes).

(** ** The strategies *)

(** Modelled from the spec: Replicated-to-Sharded on one mesh (4.4): "split
    the tensor along the designated tensor axis into k contiguous" slices
    and "assign slice i to the process at mesh-coordinate i along that
    axis"; a pure local operation. *)
Definition r_to_s (t : DistTensor) (target : DistAttr)
  : Result ReshardError DistTensor :=
  match find_shard (dims_mapping target) 0 with
  | None => Ok {| attr := target; shape := shape t; locals := locals t |}
  | Some (a, m) =>
      let k := mesh_dim_size (mesh target) m in
      match slice_sizes (default 0 (shape t !! a)) (Z.of_nat k) with
      | Err e => Err e
      | Ok sizes =>
          Ok {| attr := target; shape := shape t;
                locals := fun r =>
                  let i := coord_at (mesh target) m r in
                  local_slice (locals t r) a (slice_offset sizes i)
                              (default 0 (sizes !! i)) |}
      end
  end.

(** Modelled from the spec: Sharded-to-Replicated on one mesh (4.5): "gather
    all k per-process slices along that mesh dimension (an all-gather
    collective) and concatenate them along the corresponding tensor axis in
    ascending mesh-coordinate order". *)
Definition s_to_r (t : DistTensor) (target : DistAttr)
  : Result ReshardError DistTensor :=
  match find_shard (dims_mapping (attr t)) 0 with
  | None => Ok {| attr := target; shape := shape t; locals := locals t |}
  | Some (a, m) =>
      Ok {| attr := target; shape := shape t;
            locals := fun r =>
              local_concat (all_gather (mesh (attr t)) (locals t) m r) a |}
  end.

(** Modelled from the spec: one [all_reduce(buffer, mesh_dim, op=sum)] of
    Partial-to-Replicated; "fails with ShapeMismatch if
    the local buffer shapes across processes in the reduction group are not
    identical". *)
Definition all_reduce (M : DeviceMesh) (loc : nat -> Buffer) (m : nat)
  : Result ReshardError (nat -> Buffer) :=
  if forallb
       (fun r => forallb
          (fun b => bool_decide (buffer_shape b = buffer_shape (loc r)))
          (all_gather M loc m r))
       (seq 0 (nprocs M))
  then Ok (fun r => reduce_sum (loc r) (all_gather M loc m r))
  else Err ShapeMismatch.

Fixpoint all_reduce_dims (M : DeviceMesh) (loc : nat -> Buffer)
    (ms : list nat) : Result ReshardError (nat -> Buffer) :=
  match ms with
  | [] => Ok loc
  | m :: rest =>
      match all_reduce M loc m with
      | Err e => Err e
      | Ok loc' => all_reduce_dims M loc' rest
      end
  end.

(** The partial mesh dimensions of an attr, in ascending order. *)
Definition partial_dims_ascending (A : DistAttr) : list nat :=
  filter (fun m => m ∈ partial_dims A) (seq 0 (length (mesh_shape (mesh A)))).

(** Modelled from the spec: Partial-to-Replicated on one mesh (4.3): "for
    each mesh dimension in P, perform an element-wise sum reduction across
    all processes along that mesh dimension", "in ascending mesh-axis index
    order". *)
Definition p_to_r (t : DistTensor) (target : DistAttr)
  : Result ReshardError DistTensor :=
  match all_reduce_dims (mesh (attr t)) (locals t)
          (partial_dims_ascending (attr t)) with
  | Err e => Err e
  | Ok loc => Ok {| attr := target; shape := shape t; locals := loc |}
  end.

(** Modelled from the spec: Same-Status (4.6): a no-op, or "a local
    relabeling with no data movement". *)
Definition same_status (t : DistTensor) (target : DistAttr)
  : Result ReshardError DistTensor :=
  Ok {| attr := target; shape := shape t; locals := locals t |}.

(** Modelled from the spec: a process "would ... play two roles
    simultaneously" when it belongs to both meshes at different ranks: it
    would send for one coordinate and receive for another. *)
Definition plays_two_roles (src dst : DeviceMesh) : bool :=
  existsb
    (fun '(i, p) =>
       existsb (fun '(j, q) => bool_decide (p = q) && negb (bool_decide (i = j)))
               (imap (fun j q => (j, q)) (process_ids dst)))
    (imap (fun i p => (i, p)) (process_ids src)).

(** Modelled from the spec: the relocation phase of the cross-mesh variants
    (4.7): every process sends its local buffer to the process at the same
    mesh coordinate (hence rank) of the target mesh; nothing is sent where
    the two coincide.  It "fails with UnreachablePeer if the relocation
    phase requires a process pairing that the communication layer cannot
    resolve to a valid channel" (also when a coordinate has no counterpart)
    and with PartialOverlapUnsupported when a process would "play two roles
    simultaneously".  The relocated tensor keeps its placement, on the
    target mesh. *)
Definition relocate (t : DistTensor) (target_mesh : DeviceMesh)
  : Result ReshardError DistTensor :=
  let src := mesh (attr t) in
  if negb (bool_decide (mesh_shape src = mesh_shape target_mesh))
  then Err UnreachablePeer
  else if plays_two_roles src target_mesh
  then Err PartialOverlapUnsupported
  else if forallb (fun '(p, q) => bool_decide (p = q) || channel p q)
                  (zip (process_ids src) (process_ids target_mesh))
  then Ok {| attr := {| mesh := target_mesh;
                        dims_mapping := dims_mapping (attr t);
                        partial_dims := partial_dims (attr t) |};
             shape := shape t; locals := locals t |}
  else Err UnreachablePeer.

(** Modelled from the spec: the cross-mesh variants (4.7): relocation, then
    "the same local transformation logic as the matching single-mesh
    strategy". *)
Definition cross_mesh_then
    (local_step : DistTensor -> DistAttr -> Result ReshardError DistTensor)
    (t : DistTensor) (target : DistAttr) : Result ReshardError DistTensor :=
  match relocate t (mesh target) with
  | Err e => Err e
  | Ok t' => local_step t' target
  end.

(** Modelled from the spec: the execution step of each strategy class. *)
Definition execute (f : ReshardFunction) (t : DistTensor) (target : DistAttr)
  : Result ReshardError DistTensor :=
  match f with
  | PToRReshardFunction => p_to_r t target
  | PToRReshardFunctionCrossMesh => cross_mesh_then p_to_r t target
  | RToSReshardFunction => r_to_s t target
  | RToSReshardFunctionCrossMesh => cross_mesh_then r_to_s t target
  | SToRReshardFunction => s_to_r t target
  | SToRReshardFunctionCrossMesh => cross_mesh_then s_to_r t target
  | SameStatusReshardFunction => same_status t target
  end.

(** Modelled from the spec: [reshard(tensor, target_attr)], "the only public
    entry point; resolves a strategy via the registry and executes it". *)
Definition reshard (t : DistTensor) (target_attr : DistAttr)
  : Result ReshardError DistTensor :=
  match find is_suitable startup_registry (attr t) target_attr (shape t) with
  | Err e => Err e
  | Ok f => execute f t target_attr
  end.

(** ** The logical value *)

(** The tensor axis sharded along mesh dimension [m], if any. *)
Fixpoint axis_sharded_on (dm : list (option nat)) (m a : nat) : option nat :=
  match dm with
  | [] => None
  | e :: rest =>
      if bool_decide (e = Some m) then Some a
      else axis_sharded_on rest m (S a)
  end.

(** Modelled from the spec: the logical value of a distributed tensor (the
    glossary's Sharded, Replicated and Partial), assembled mesh dimension by
    mesh dimension from the rank [base] on: a partial dimension is summed, a
    dimension that shards a tensor axis is concatenated along that axis in
    ascending coordinate order, and along any other dimension all processes
    hold the same thing. *)
Fixpoint gather_value (A : DistAttr) (loc : nat -> Buffer) (ms : list nat)
    (base : nat) : Buffer :=
  match ms with
  | [] => loc base
  | m :: rest =>
      let parts :=
        (fun j => gather_value A loc rest (base + j * stride (mesh A) m)%nat)
          <$> seq 0 (mesh_dim_size (mesh A) m) in
      if bool_decide (m ∈ partial_dims A)
      then reduce_sum (gather_value A loc rest base) parts
      else match axis_sharded_on (dims_mapping A) m 0 with
           | Some a => local_concat parts a
           | None => gather_value A loc rest base
           end
  end.

Definition logical_value (t : DistTensor) : Buffer :=
  gather_value (attr t) (locals t)
    (seq 0 (length (mesh_shape (mesh (attr t))))) 0.

(** ** Well-formed tensors *)

(** Modelled from the spec: a DistTensor whose local buffers agree with its
    declared attr (what ShapeMismatch guards), as far as the strategies rely
    on it: the attr has one entry per tensor dimension; a
    replicated tensor has the same buffer, of the logical shape, on every
    process; the local buffers of a sharded tensor have, along the sharded
    axis, the slice sizes of the logical shape. *)
Definition tensor_wf (t : DistTensor) : Prop :=
  attr_wf (attr t)
  /\ length (dims_mapping (attr t)) = length (shape t)
  /\ Forall (fun n => 0 <= n) (shape t)
  /\ (is_replicated (attr t) = true ->
      forall r, (r < nprocs (mesh (attr t)))%nat ->
        locals t r = locals t 0%nat /\ buffer_shape (locals t r) = shape t)
  /\ (is_sharded (attr t) = true ->
      forall a m, find_shard (dims_mapping (attr t)) 0 = Some (a, m) ->
        exists sizes,
          slice_sizes (default 0 (shape t !! a))
            (Z.of_nat (mesh_dim_size (mesh (attr t)) m)) = Ok sizes
          /\ forall r, (r < nprocs (mesh (attr t)))%nat ->
               buffer_shape (locals t r) !! a
               = Some (default 0 (sizes !! coord_at (mesh (attr t)) m r))).

(** Modelled from the spec: what the engine assumes of [local_slice] and
    [local_concat] (4.5, "concatenation order must exactly invert the slicing
    order"): the slices of a buffer
    that cover an axis concatenate back to the buffer, and a concatenation
    is as long, along its axis, as its parts together. *)
Class CommLayerLaws : Prop := {
  concat_slices : forall (b : Buffer) (a : nat) (sizes : list Z),
    Forall (fun n => 0 <= n) sizes ->
    buffer_shape b !! a = Some (sum_sizes sizes) ->
    local_concat (slices b a sizes) a = b;
  shape_concat : forall (bs : list Buffer) (a : nat),
    bs <> [] ->
    Forall (fun b => is_Some (buffer_shape b !! a)) bs ->
    buffer_shape (local_concat bs a) !! a
    = Some (sum_sizes ((fun b => axis_len b a) <$> bs))
}.
End Engine.

(** ** A small concrete communication layer, to run the engine on *)

(** One-dimensional buffers: lists of integers, cut and joined along their
    only axis, with every channel available. *)
#[local] Instance list_comm : CommLayer := {|
  Buffer := list Z;
  buffer_shape := fun b => [Z.of_nat (length b)];
  local_slice := fun b _ index count =>
    take (Z.to_nat count) (drop (Z.to_nat index) b);
  local_concat := fun bs _ => concat bs;
  buffer_add := zip_with Z.add;
  channel := fun _ _ => true
|}.

Definition mesh_of_3 : DeviceMesh :=
  {| mesh_shape := [3%nat]; process_ids := [0%nat; 1%nat; 2%nat] |}.

Definition replicated_on_3 : DistAttr :=
  {| mesh := mesh_of_3; dims_mapping := [None]; partial_dims := ∅ |}.

Definition sharded_on_3 : DistAttr :=
  {| mesh := mesh_of_3; dims_mapping := [Some 0%nat]; partial_dims := ∅ |}.

(** A replicated vector of 4 entries, and one of 10 entries. *)
Definition vector_4 : DistTensor :=
  {| attr := replicated_on_3; shape := [4];
     locals := fun _ => [10; 11; 12; 13] |}.

Definition vector_10 : DistTensor :=
  {| attr := replicated_on_3; shape := [10];
     locals := fun _ => [0; 1; 2; 3; 4; 5; 6; 7; 8; 9] |}.

(** [vector_10] resharded along its axis, and brought back. *)
Definition vector_10_sharded : DistTensor :=
  match reshard vector_10 sharded_on_3 with
  | Ok t => t
  | Err _ => vector_10
  end.

Definition vector_10_back : DistTensor :=
  match reshard vector_10_sharded replicated_on_3 with
  | Ok t => t
  | Err _ => vector_10
  end.

(** ... and sharded once more. *)
Definition vector_10_resharded : DistTensor :=
  match reshard vector_10_back sharded_on_3 with
  | Ok t => t
  | Err _ => vector_10
  end.

End Reshard.

(* ===================================================================== *)
(** * The SOT compile cache (compile_cache.py)                            *)
(* ===================================================================== *)

Module CompileCache.

(** Exceptions that escape a call. *)
Inductive Exn : Type :=
| KeyError (key : string)
| AttributeError (attr : string)
| RuntimeError (msg : string).

#[global] Instance result_ret : MRet (Result Exn) := fun A a => Ok a.
#[global] Instance result_bind : MBind (Result Exn) :=
  fun A B (k : A -> Result Exn B) (r : Result Exn A) =>
    match r with Ok a => k a | Err e => Err e end.

(** ** Tensors are objects: a store of mutable tensors, addressed by
    reference.  Every reference denotes an object. *)
Definition ref : Type := nat.

Record Tensor : Type := {
  name : string;
  payload : Z
}.

Definition Store : Type := ref -> Tensor.

(** [t.name = n] for the object behind [r]. *)
Definition set_name (r : ref) (n : string) (st : Store) : Store :=
  fun r' =>
    if decide (r' = r) then {| name := n; payload := payload (st r') |}
    else st r'.

(** [clear_eager_tensor_name], lines 36-38, on a store. *)
Definition clear_names (output_tensors : list ref) (st : Store) : Store :=
  fold_left (fun st' output_tensor => set_name output_tensor "" st')
            output_tensors st.

(** ** What compile_cache.py takes from the rest of Paddle *)

(** The collaborators are not part of this file: the types of call
    arguments, Python callables, programs, statement IRs, contexts and
    keyword values, and the operations on them that the file calls. *)
Class Runtime : Type := {
  Args : Type;
  Function : Type;
  ConcreteProgram : Type;
  PartialProgram : Type;
  StatementIR : Type;
  SymbolicTraceContext : Type;
  PyValue : Type;
  (** [context.get_sir(name)] *)
  get_sir : SymbolicTraceContext -> string -> Result Exn StatementIR;
  (** [compile_sir(context, name)] *)
  compile_sir : SymbolicTraceContext -> string -> Result Exn Function;
  (** [str(sir)] and the interpreter's [hash] on strings *)
  str : StatementIR -> string;
  hash : string -> Z;
  (** what [paddle.jit.to_static(fn, build_strategy=.., backend=..,
      enable_fallback=..)] raises on arguments it refuses *)
  to_static_check :
    Function -> option PyValue -> option PyValue -> bool -> Result Exn unit;
}.

Section WithRuntime.
Context `{RT : Runtime}.

(** The object returned by [paddle.jit.to_static(fn, build_strategy=...,
    backend=..., enable_fallback=...)]: it remembers what it was built
    from.  [None] stands for Python's [None]. *)
Record StaticFunction : Type := static_function {
  sf_function : Function;
  sf_build_strategy : option PyValue;
  sf_backend : option PyValue;
  sf_enable_fallback : bool
}.

(** [paddle.jit.to_static(fn, build_strategy=..., backend=...,
    enable_fallback=...)]: it raises on arguments it refuses and returns
    the static function built from them otherwise. *)
Definition to_static (fn : Function) (build_strategy backend : option PyValue)
    (enable_fallback : bool) : Result Exn StaticFunction :=
  to_static_check fn build_strategy backend enable_fallback ;;
  mret (static_function fn build_strategy backend enable_fallback).

(** The behaviour of the callables the wrapper invokes: calling a static
    function, asking it for its programs, and calling a partial program.
    Calls may raise, and may allocate and mutate tensors. *)
Record Callables : Type := {
  run_static_function :
    StaticFunction -> Args -> Store -> Result Exn (list ref) * Store;
  static_get_concrete_program :
    StaticFunction -> Args -> Result Exn (ConcreteProgram * PartialProgram);
  run_partial_program :
    PartialProgram -> Args -> Store -> Result Exn (list ref) * Store
}.

(** ** FallbackWrapper *)

Record FallbackWrapper : Type := {
  compiled_fn : StaticFunction;
  partial_program : option PartialProgram;
  concrete_program : option ConcreteProgram;
  SIR : StatementIR
}.

(** [FallbackWrapper.__init__], lines 46-50. *)
Definition init (compiled_fn : StaticFunction) (SIR : StatementIR)
  : FallbackWrapper :=
  {| compiled_fn := compiled_fn;
     partial_program := None;
     concrete_program := None;
     SIR := SIR |}.

(** What a call does that can be observed from outside, in order. *)
Inductive Event : Type :=
| TraceBackFrames
| PrintSIR (sir : StatementIR)
| PrintTrainProgram (pp : PartialProgram)
| CallCompiledFn (fn : StaticFunction) (args : Args)
| GetConcreteProgram (fn : StaticFunction) (args : Args)
| CallPartialProgram (pp : PartialProgram) (args : Args)
| AddSubgraph (cp : ConcreteProgram)
| PrintSuccess.

(** The state a call of the wrapper runs in: the wrapper object itself,
    the tensor store, and the events so far (oldest first). *)
Record Machine : Type := {
  self : FallbackWrapper;
  store : Store;
  trace : list Event
}.

(** Computations that may raise; the state survives an exception. *)
Definition M (A : Type) : Type := Machine -> Result Exn A * Machine.

#[global] Instance M_ret : MRet M := fun A a m => (Ok a, m).
#[global] Instance M_bind : MBind M :=
  fun A B (k : A -> M B) (c : M A) m =>
    match c m with
    | (Ok a, m') => k a m'
    | (Err e, m') => (Err e, m')
    end.

Definition raise {A} (e : Exn) : M A := fun m => (Err e, m).
Definition get_self : M FallbackWrapper := fun m => (Ok (self m), m).
Definition emit (ev : Event) : M unit :=
  fun m => (Ok tt, {| self := self m; store := store m;
                      trace := trace m ++ [ev] |}).
Definition lift_pure {A} (r : Result Exn A) : M A := fun m => (r, m).
Definition on_store {A} (f : Store -> Result Exn A * Store) : M A :=
  fun m => let '(r, st) := f (store m) in
           (r, {| self := self m; store := st; trace := trace m |}).

(** The tuple assignment of lines 72-75. *)
Definition set_programs (cp : ConcreteProgram) (pp : PartialProgram)
  : M unit :=
  fun m => (Ok tt,
            {| self := {| compiled_fn := compiled_fn (self m);
                          partial_program := Some pp;
                          concrete_program := Some cp;
                          SIR := SIR (self m) |};
               store := store m; trace := trace m |}).

Definition clear_eager_tensor_name (output_tensors : list ref) : M unit :=
  on_store (fun st => (Ok tt, clear_names output_tensors st)).

Section Call.
Variable ext : Callables.
(** [utils.log_do(level, fn)] runs [fn] when logging at [level] is on, and
    does nothing otherwise; which levels are on is configuration. *)
Variable log_enabled : Z -> bool.
(** [StepInfoManager().need_back_trace] *)
Variable need_back_trace : bool.

Definition log_do (level : Z) (fn : M unit) : M unit :=
  if log_enabled level then fn else mret tt.

(** [FallbackWrapper.__call__], lines 52-92.  The [EventGuard] blocks only
    time their bodies. *)
Definition call (args : Args) : M (list ref) :=
  (if need_back_trace then emit TraceBackFrames else mret tt) ;;
  log_do 2 (w ← get_self; emit (PrintSIR (SIR w))) ;;
  log_do 4 (w ← get_self;
            emit (GetConcreteProgram (compiled_fn w) args) ;;
            programs ← lift_pure
              (static_get_concrete_program ext (compiled_fn w) args);
            emit (PrintTrainProgram programs.2)) ;;
  w ← get_self;
  outputs ←
    match partial_program w with
    | None =>
        emit (CallCompiledFn (compiled_fn w) args) ;;
        outputs ← on_store (run_static_function ext (compiled_fn w) args);
        emit (GetConcreteProgram (compiled_fn w) args) ;;
        programs ← lift_pure
          (static_get_concrete_program ext (compiled_fn w) args);
        set_programs programs.1 programs.2 ;;
        mret outputs
    | Some pp =>
        emit (CallPartialProgram pp args) ;;
        on_store (run_partial_program ext pp args)
    end;
  clear_eager_tensor_name outputs ;;
  log_do 1 (w ← get_self;
            match concrete_program w with
            | Some cp => emit (AddSubgraph cp)
            | None => raise (AttributeError "main_program")
            end) ;;
  log_do 4 (emit PrintSuccess) ;;
  mret outputs.

(** Calling the wrapper on each argument list in turn, whether or not a
    call raises. *)
Fixpoint calls (argss : list Args) (m : Machine) : Machine :=
  match argss with
  | [] => m
  | args :: rest => calls rest (call args m).2
  end.
End Call.

(** The events a run added to the trace. *)
Definition events_since (before after : Machine) : list Event :=
  drop (length (trace before)) (trace after).

Definition is_call_compiled_fn (ev : Event) : bool :=
  match ev with CallCompiledFn _ _ => true | _ => false end.

(** ** CompileSIRCache *)

(** Keyword arguments of a call, by name. *)
Definition Kwargs : Type := gmap string PyValue.

(** [CompileSIRCache.key_fn], lines 104-119. *)
Definition key_fn (context : SymbolicTraceContext) (sir_name : string)
    (kwargs : Kwargs) : Result Exn Z :=
  sir ← get_sir context sir_name;
  let hash_key := hash (str sir) in
  mret hash_key.

(** [CompileSIRCache.value_fn], lines 121-143. *)
Definition value_fn (context : SymbolicTraceContext) (sir_name : string)
    (kwargs : Kwargs) : Result Exn FallbackWrapper :=
  let build_strategy := kwargs !! "build_strategy" in
  let backend := kwargs !! "backend" in
  fn ← compile_sir context sir_name;
  static_fn ← to_static fn build_strategy backend false;
  sir ← get_sir context sir_name;
  mret (init static_fn sir).

(** Modelled from the spec: the call of the cache (base class utils.Cache),
    "a pure memoization layer" that "memoizes generated executable graphs
    keyed by a structural hash of a trace", "with single-producer-per-key
    semantics": a key already present returns the stored value, a new key
    is produced by [value_fn] once and stored. *)
Definition cache_call (cache : gmap Z FallbackWrapper)
    (context : SymbolicTraceContext) (sir_name : string) (kwargs : Kwargs)
  : Result Exn (FallbackWrapper * gmap Z FallbackWrapper) :=
  cache_key ← key_fn context sir_name kwargs;
  match cache !! cache_key with
  | Some value => mret (value, cache)
  | None =>
      value ← value_fn context sir_name kwargs;
      mret (value, <[cache_key := value]> cache)
  end.
End WithRuntime.

(** ** A small concrete runtime, to run the definitions on *)

(** A toy string hash: a polynomial in the character codes. *)
Fixpoint toy_hash (s : string) : Z :=
  match s with
  | EmptyString => 7
  | String c rest => (Z.of_nat (Ascii.nat_of_ascii c) + 31 * toy_hash rest)
                       mod 1000003
  end.

(** Statement IRs are lists of statement texts, contexts map names to
    statement IRs, compiled functions are named after their SIR, and the
    only backend that [to_static] accepts besides [None] is "CINN". *)
#[local] Instance toy_runtime : Runtime := {|
  Args := list Z;
  Function := string;
  ConcreteProgram := string;
  PartialProgram := string;
  StatementIR := list string;
  SymbolicTraceContext := gmap string (list string);
  PyValue := string;
  get_sir := fun ctx n =>
    match ctx !! n with Some sir => Ok sir | None => Err (KeyError n) end;
  compile_sir := fun ctx n =>
    match ctx !! n with Some _ => Ok n | None => Err (KeyError n) end;
  str := fun sir => foldr String.append EmptyString sir;
  hash := toy_hash;
  to_static_check := fun _ _ backend _ =>
    match backend with
    | Some b => if decide (b = "CINN") then Ok tt
                else Err (RuntimeError "backend")
    | None => Ok tt
    end
|}.

Definition toy_store : Store :=
  fun r => {| name := "generated_tensor"; payload := Z.of_nat r |}.

(** Both ways of running return the tensors behind references 0, 1 and 0
    again, and leave the store alone. *)
Definition toy_callables : Callables := {|
  run_static_function := fun _ _ st => (Ok [0%nat; 1%nat; 0%nat], st);
  static_get_concrete_program := fun f _ =>
    Ok (String.append "concrete:" (sf_function f),
        String.append "partial:" (sf_function f));
  run_partial_program := fun _ _ st => (Ok [0%nat; 1%nat; 0%nat], st)
|}.

Definition toy_context_1 : gmap string (list string) :=
  {[ "SIR_0" := ["x = a + b"; "return x"] ]}.
Definition toy_context_2 : gmap string (list string) :=
  {[ "SIR_0" := ["x = a + b"; "return x"]; "SIR_1" := ["return a"] ]}.

Definition toy_static_fn : StaticFunction :=
  static_function "SIR_0" None None false.

Definition toy_kwargs_A : gmap string string := {[ "build_strategy" := "A" ]}.
Definition toy_kwargs_B : gmap string string := {[ "build_strategy" := "B" ]}.

(** The wrapper that [value_fn] builds for "SIR_0" under [toy_kwargs_A],
    and the cache that holds it under the key of "SIR_0". *)
Definition toy_wrapper_A : FallbackWrapper :=
  init (static_function "SIR_0" (Some "A") None false)
       ["x = a + b"; "return x"].
Definition toy_cache_A : gmap Z FallbackWrapper :=
  <[ 49417 := toy_wrapper_A ]> ∅.

Definition toy_machine (w : FallbackWrapper) : Machine :=
  {| self := w; store := toy_store; trace := [] |}.

(** A fresh wrapper for "SIR_0", and the machine after one and after two
    calls of it with logging off. *)
Definition toy_m0 : Machine :=
  toy_machine (init toy_static_fn ["x = a + b"; "return x"]).
Definition toy_m1 : Machine :=
  (call toy_callables (fun _ => false) false [1; 2] toy_m0).2.
Definition toy_m2 : Machine :=
  (call toy_callables (fun _ => false) false [3; 4] toy_m1).2.
Definition toy_partial : PartialProgram := "partial:SIR_0".

(** ** Notions used to describe runs of the wrapper *)

(** The two programs of a wrapper are both present or both absent. *)
Definition programs_together `{RT : Runtime} (w : FallbackWrapper) : Prop :=
  is_Some (partial_program w) <-> is_Some (concrete_program w).

(** Callables like [toy_callables], except that calling the static function
    raises, or that asking it for its programs raises. *)
Definition toy_callables_call_raises : Callables := {|
  run_static_function := fun _ _ st => (Err (RuntimeError "call"), st);
  static_get_concrete_program := static_get_concrete_program toy_callables;
  run_partial_program := run_partial_program toy_callables
|}.

(** Callables like [toy_callables], except that the static function has no
    programs for an empty argument list. *)
Definition toy_callables_picky : Callables := {|
  run_static_function := run_static_function toy_callables;
  static_get_concrete_program := fun f args =>
    match args with
    | [] => Err (RuntimeError "programs")
    | _ => static_get_concrete_program toy_callables f args
    end;
  run_partial_program := run_partial_program toy_callables
|}.

(** The fresh toy wrapper after one call with all logging on. *)
Definition toy_m1_logged : Machine :=
  (call toy_callables_picky (fun _ => true) true [1; 2] toy_m0).2.

Definition toy_callables_programs_raise : Callables := {|
  run_static_function := run_static_function toy_callables;
  static_get_concrete_program := fun _ _ => Err (RuntimeError "programs");
  run_partial_program := run_partial_program toy_callables
|}.

End CompileCache.

(* ===================================================================== *)
(** * Properties of the reshard registry                                  *)
(* ===================================================================== *)

Section RegistryFacts.
Import Reshard.
Context {Strategy : Type}.
Variable is_suitable : Strategy -> DistAttr -> DistAttr -> bool.

Lemma find_ok_first registry src dst shape s :
  find is_suitable registry src dst shape = Ok s ->
  first_accepting is_suitable registry src dst s.
Proof.
  induction registry as [|r registry IH]; simpl; [discriminate|].
  destruct (is_suitable r src dst) eqn:Hr.
  - intros [= <-]. exists [], registry. repeat split; [constructor | exact Hr].
  - intros Hfind. destruct (IH Hfind) as (earlier & later & -> & Hrej & Hacc).
    exists (r :: earlier), later. repeat split; [|exact Hacc].
    constructor; assumption.
Qed.

End RegistryFacts.

Section StartupFacts.
Import Reshard.

Lemma register_reshard_funcs_exec g :
  st_exec register_reshard_funcs g
  = {| g_reshard_func_list := g_reshard_func_list g ++ seven_in_order;
       register_log := register_log g ++ seven_in_order |}.
Proof.
  destruct g as [l lg]. unfold st_exec, register_reshard_funcs.
  unfold mbind, state_bind, register_reshard_func, st_modify, register.
  simpl. now rewrite <- !app_assoc.
Qed.

Lemma startup_registry_eq : startup_registry = seven_in_order.
Proof. reflexivity. Qed.

Lemma register_lookup_old (f : ReshardFunction) registry (i : nat) :
  (i < length registry)%nat -> register f registry !! i = registry !! i.
Proof. intros Hi. unfold register. now apply lookup_app_l. Qed.

Lemma register_lookup_new (f : ReshardFunction) registry :
  register f registry !! length registry = Some f.
Proof. unfold register. now rewrite list_lookup_middle. Qed.

Lemma import_loaded p :
  module_loaded p = true -> import_register_module p = p.
Proof. unfold import_register_module. now intros ->. Qed.

(** In a process that has imported the module, an event appends what it
    registers and nothing else happens to the registry. *)
Lemma step_loaded p e :
  module_loaded p = true ->
  process_step p e
  = {| module_loaded := true;
       globals :=
         {| g_reshard_func_list :=
              g_reshard_func_list (globals p) ++ registered_by e;
            register_log := register_log (globals p) ++ registered_by e |} |}.
Proof.
  destruct p as [ld [l lg]]. simpl. intros ->.
  destruct e; simpl; rewrite ?app_nil_r; try reflexivity.
  - unfold reload_register_module, module_body. simpl.
    now rewrite register_reshard_funcs_exec.
  - unfold call_register_reshard_funcs. simpl.
    now rewrite register_reshard_funcs_exec.
Qed.

Lemma run_loaded p events :
  module_loaded p = true ->
  process_run p events
  = {| module_loaded := true;
       globals :=
         {| g_reshard_func_list :=
              g_reshard_func_list (globals p)
              ++ mjoin (registered_by <$> events);
            register_log :=
              register_log (globals p)
              ++ mjoin (registered_by <$> events) |} |}.
Proof.
  revert p. induction events as [|e events IH]; intros p Hp.
  - destruct p as [ld [l lg]]. simpl in *. subst ld.
    now rewrite !app_nil_r.
  - change (process_run p (e :: events))
      with (process_run (process_step p e) events).
    rewrite (step_loaded p e Hp). rewrite IH by reflexivity. simpl.
    now rewrite <- !app_assoc.
Qed.

Lemma registered_by_nil e :
  registered_by e = [] <-> imports_or_dispatches e = true.
Proof. destruct e; simpl; split; intros H; try reflexivity; discriminate. Qed.

Lemma registered_nothing events :
  mjoin (registered_by <$> events) = []
  <-> Forall (fun e => imports_or_dispatches e = true) events.
Proof.
  induction events as [|e events IH]; simpl.
  - split; [constructor | reflexivity].
  - split.
    + intros [He Hrest]%app_eq_nil. constructor.
      * now apply registered_by_nil.
      * now apply IH.
    + intros H. apply Forall_cons in H as [He Hrest].
      apply registered_by_nil in He. rewrite He. simpl. now apply IH.
Qed.

(** A process that so far only imported and dispatched. *)
Lemma run_from_start events :
  Forall (fun e => imports_or_dispatches e = true) events ->
  process_run process_start events
  = if bool_decide (ImportRegisterModule ∈ events)
    then process_started else process_start.
Proof.
  induction events as [|e events IH] using rev_ind; intros Hev.
  - reflexivity.
  - apply Forall_app in Hev as [Hev He]. apply Forall_cons in He as [He _].
    unfold process_run in *. rewrite fold_left_app. simpl.
    rewrite (IH Hev).
    destruct (bool_decide (ImportRegisterModule ∈ events)) eqn:Hin.
    + apply bool_decide_eq_true in Hin.
      rewrite step_loaded by reflexivity.
      apply registered_by_nil in He. rewrite He. simpl.
      rewrite bool_decide_eq_true_2; [reflexivity|].
      apply elem_of_app. now left.
    + apply bool_decide_eq_false in Hin. destruct e; try discriminate He.
      * rewrite bool_decide_eq_true_2; [reflexivity|].
        apply elem_of_app. right. now apply list_elem_of_singleton.
      * rewrite bool_decide_eq_false_2; [reflexivity|].
        intros [H|H]%elem_of_app; [now apply Hin|].
        apply list_elem_of_singleton in H. discriminate.
Qed.
End StartupFacts.

(** C2. After startup registration the registry holds exactly seven
    strategies: Partial-to-Replicated, Replicated-to-Sharded,
    Sharded-to-Replicated, Same-Status and the cross-mesh variants of the
    first three, each of them in exactly one entry and nothing else; they
    are what the seven calls of [register_reshard_funcs] registered. *)
Theorem startup_registry_exactly_seven :
  length Reshard.startup_registry = 7%nat
  /\ NoDup Reshard.startup_registry
  /\ (forall f : Reshard.ReshardFunction,
        f ∈ Reshard.startup_registry
        <-> f ∈ [ Reshard.PToRReshardFunction; Reshard.RToSReshardFunction;
                  Reshard.SToRReshardFunction;
                  Reshard.SameStatusReshardFunction;
                  Reshard.PToRReshardFunctionCrossMesh;
                  Reshard.RToSReshardFunctionCrossMesh;
                  Reshard.SToRReshardFunctionCrossMesh ])
  /\ (forall f : Reshard.ReshardFunction,
        length (filter (fun g => g = f) Reshard.startup_registry) = 1%nat)
  /\ Reshard.register_log
       (st_exec Reshard.register_reshard_funcs Reshard.initial_globals)
     = Reshard.startup_registry.
Proof.
  rewrite startup_registry_eq. unfold Reshard.seven_in_order.
  split; [reflexivity|]. split.
  { apply (bool_decide_unpack _). vm_compute. exact I. }
  split.
  { intros f. split; intros _;
      destruct f; apply (bool_decide_unpack _); vm_compute; exact I. }
  split.
  { intros f. destruct f; vm_compute; reflexivity. }
  reflexivity.
Qed.

(** C3. [register] puts the strategy at the end of the ordered list, leaving
    the earlier entries where they were; [register_reshard_funcs] extends
    whatever registry it finds by its seven strategies in source order; and
    in the registration order produced at startup every cross-mesh strategy
    stands strictly after its single-mesh counterpart. *)
Theorem register_appends_and_cross_mesh_after_single :
  (forall (f : Reshard.ReshardFunction)
          (registry : list Reshard.ReshardFunction),
      length (Reshard.register f registry) = S (length registry)
      /\ Reshard.register f registry !! length registry = Some f
      /\ (forall i : nat, (i < length registry)%nat ->
            Reshard.register f registry !! i = registry !! i))
  /\ (forall g : Reshard.Globals,
        Reshard.g_reshard_func_list (st_exec Reshard.register_reshard_funcs g)
        = Reshard.g_reshard_func_list g
          ++ [ Reshard.PToRReshardFunction;
               Reshard.PToRReshardFunctionCrossMesh;
               Reshard.RToSReshardFunction;
               Reshard.RToSReshardFunctionCrossMesh;
               Reshard.SameStatusReshardFunction;
               Reshard.SToRReshardFunction;
               Reshard.SToRReshardFunctionCrossMesh ])
  /\ (exists i j : nat,
        Reshard.index_of Reshard.PToRReshardFunction Reshard.startup_registry
        = Some i
        /\ Reshard.index_of Reshard.PToRReshardFunctionCrossMesh
             Reshard.startup_registry = Some j
        /\ (i < j)%nat)
  /\ (exists i j : nat,
        Reshard.index_of Reshard.RToSReshardFunction Reshard.startup_registry
        = Some i
        /\ Reshard.index_of Reshard.RToSReshardFunctionCrossMesh
             Reshard.startup_registry = Some j
        /\ (i < j)%nat)
  /\ (exists i j : nat,
        Reshard.index_of Reshard.SToRReshardFunction Reshard.startup_registry
        = Some i
        /\ Reshard.index_of Reshard.SToRReshardFunctionCrossMesh
             Reshard.startup_registry = Some j
        /\ (i < j)%nat).
Proof.
  split.
  { intros f registry. split; [|split].
    - unfold Reshard.register. rewrite length_app. simpl. lia.
    - apply register_lookup_new.
    - intros i Hi. now apply register_lookup_old. }
  split.
  { intros g. now rewrite register_reshard_funcs_exec. }
  split; [|split].
  - exists 0%nat, 1%nat. repeat split. lia.
  - exists 2%nat, 3%nat. repeat split. lia.
  - exists 5%nat, 6%nat. repeat split. lia.
Qed.

(** C6, as stated, fails: nothing in the code keeps the registry from
    changing after startup.  A process that imports the module and later
    calls [register_reshard_funcs] holds every strategy twice. *)
Lemma registry_grows_on_later_call :
  Reshard.g_reshard_func_list
    (Reshard.globals
       (Reshard.process_run Reshard.process_start
          [Reshard.ImportRegisterModule]))
  = [ Reshard.PToRReshardFunction; Reshard.PToRReshardFunctionCrossMesh;
      Reshard.RToSReshardFunction; Reshard.RToSReshardFunctionCrossMesh;
      Reshard.SameStatusReshardFunction;
      Reshard.SToRReshardFunction; Reshard.SToRReshardFunctionCrossMesh ]
  /\ Reshard.g_reshard_func_list
       (Reshard.globals
          (Reshard.process_run Reshard.process_start
             [Reshard.ImportRegisterModule;
              Reshard.CallRegisterReshardFuncs]))
     = [ Reshard.PToRReshardFunction; Reshard.PToRReshardFunctionCrossMesh;
         Reshard.RToSReshardFunction; Reshard.RToSReshardFunctionCrossMesh;
         Reshard.SameStatusReshardFunction;
         Reshard.SToRReshardFunction; Reshard.SToRReshardFunctionCrossMesh;
         Reshard.PToRReshardFunction; Reshard.PToRReshardFunctionCrossMesh;
         Reshard.RToSReshardFunction; Reshard.RToSReshardFunctionCrossMesh;
         Reshard.SameStatusReshardFunction;
         Reshard.SToRReshardFunction; Reshard.SToRReshardFunctionCrossMesh ]
  /\ Reshard.g_reshard_func_list
       (Reshard.globals
          (Reshard.process_run Reshard.process_start
             [Reshard.ImportRegisterModule;
              Reshard.CallRegisterReshardFuncs]))
     <> Reshard.g_reshard_func_list
          (Reshard.globals
             (Reshard.process_run Reshard.process_start
                [Reshard.ImportRegisterModule])).
Proof.
  split; [reflexivity|]. split; [reflexivity|].
  vm_compute. discriminate.
Qed.

(** C6, amended.  The registry is populated when the registration module is
    first imported, by the single module-level call, which registers each of
    the seven strategies once; as long as the process only imports and
    dispatches, the registry and the record of registrations are these
    seven.  Afterwards every event appends what it registers, in order: a
    further import or a dispatch nothing, a reload of the module or a call
    of [register_reshard_funcs] the seven strategies again, a call of
    [register_reshard_func] its strategy.  So the registry stays as it was
    exactly when the process goes on to import and dispatch only. *)
Theorem registry_populated_once_then_fixed :
  (forall events : list Reshard.ProcessEvent,
      Forall (fun e => Reshard.imports_or_dispatches e = true) events ->
      let p := Reshard.process_run Reshard.process_start events in
      if bool_decide (Reshard.ImportRegisterModule ∈ events)
      then Reshard.module_loaded p = true
           /\ Reshard.g_reshard_func_list (Reshard.globals p)
              = [ Reshard.PToRReshardFunction;
                  Reshard.PToRReshardFunctionCrossMesh;
                  Reshard.RToSReshardFunction;
                  Reshard.RToSReshardFunctionCrossMesh;
                  Reshard.SameStatusReshardFunction;
                  Reshard.SToRReshardFunction;
                  Reshard.SToRReshardFunctionCrossMesh ]
           /\ Reshard.register_log (Reshard.globals p)
              = Reshard.g_reshard_func_list (Reshard.globals p)
           /\ NoDup (Reshard.register_log (Reshard.globals p))
      else p = Reshard.process_start)
  /\ (forall (p : Reshard.Process) (after : list Reshard.ProcessEvent),
        Reshard.module_loaded p = true ->
        let p' := Reshard.process_run p after in
        Reshard.module_loaded p' = true
        /\ Reshard.g_reshard_func_list (Reshard.globals p')
           = Reshard.g_reshard_func_list (Reshard.globals p)
             ++ mjoin (Reshard.registered_by <$> after)
        /\ Reshard.register_log (Reshard.globals p')
           = Reshard.register_log (Reshard.globals p)
             ++ mjoin (Reshard.registered_by <$> after))
  /\ (forall (p : Reshard.Process) (after : list Reshard.ProcessEvent),
        Reshard.module_loaded p = true ->
        Reshard.g_reshard_func_list
          (Reshard.globals (Reshard.process_run p after))
        = Reshard.g_reshard_func_list (Reshard.globals p)
        <-> Forall (fun e => Reshard.imports_or_dispatches e = true) after).
Proof.
  split; [|split].
  - intros events Hev. cbv zeta. rewrite (run_from_start events Hev).
    destruct (bool_decide _); [|reflexivity].
    repeat split. apply (bool_decide_unpack _). vm_compute. exact I.
  - intros p after Hp. cbv zeta. rewrite (run_loaded p after Hp).
    repeat split.
  - intros p after Hp. rewrite (run_loaded p after Hp). simpl.
    rewrite <- registered_nothing.
    split.
    + intros H. rewrite <- (app_nil_r (Reshard.g_reshard_func_list _)) in H
        at 2.
      now apply app_inv_head in H.
    + intros ->. apply app_nil_r.
Qed.

(** The amended C6 on a process that dispatches, imports twice, and then
    registers one more strategy itself. *)
Lemma registry_populated_once_then_fixed_witness :
  Reshard.g_reshard_func_list
    (Reshard.globals
       (Reshard.process_run Reshard.process_start
          [ Reshard.ImportRegisterModule; Reshard.ImportRegisterModule ]))
  = [ Reshard.PToRReshardFunction; Reshard.PToRReshardFunctionCrossMesh;
      Reshard.RToSReshardFunction; Reshard.RToSReshardFunctionCrossMesh;
      Reshard.SameStatusReshardFunction;
      Reshard.SToRReshardFunction; Reshard.SToRReshardFunctionCrossMesh ]
  /\ length
       (Reshard.g_reshard_func_list
          (Reshard.globals
             (Reshard.process_run Reshard.process_started
                [ Reshard.ImportRegisterModule;
                  Reshard.CallRegisterReshardFunc
                    Reshard.SameStatusReshardFunction ])))
     = 8%nat.
Proof.
  destruct registry_populated_once_then_fixed as (Hstart & Hlater & _).
  split.
  - pose proof (Hstart [ Reshard.ImportRegisterModule;
                         Reshard.ImportRegisterModule ]) as H.
    cbv zeta in H.
    rewrite bool_decide_eq_true_2 in H by apply list_elem_of_here.
    apply H. repeat constructor.
  - destruct (Hlater Reshard.process_started
                [ Reshard.ImportRegisterModule;
                  Reshard.CallRegisterReshardFunc
                    Reshard.SameStatusReshardFunction ] eq_refl)
      as (_ & -> & _).
    reflexivity.
Defined.
(* ===================================================================== *)
(** * Properties of the slice sizes                                       *)
(* ===================================================================== *)

Section SliceFacts.
Import Reshard.

Lemma sum_sizes_replicate (n : nat) c :
  sum_sizes (replicate n c) = Z.of_nat n * c.
Proof.
  induction n as [|n IH]; [reflexivity|].
  change (replicate (S n) c) with (c :: replicate n c).
  unfold sum_sizes in *. simpl foldr. rewrite IH. lia.
Qed.

Lemma sum_sizes_app l1 l2 :
  sum_sizes (l1 ++ l2) = sum_sizes l1 + sum_sizes l2.
Proof.
  induction l1 as [|x l1 IH]; [reflexivity|].
  unfold sum_sizes in *. simpl. rewrite IH. lia.
Qed.
End SliceFacts.

(* ===================================================================== *)
(** * Properties of the reshard strategies                                *)
(* ===================================================================== *)

Section MeshFacts.
Import Reshard.

Lemma product_pos (l : list nat) :
  Forall (fun k => (1 <= k)%nat) l -> (1 <= foldr Nat.mul 1 l)%nat.
Proof.
  induction 1 as [|k l Hk _ IH]; simpl; [lia|]. nia.
Qed.

Lemma stride_pos M m : mesh_wf M -> (1 <= stride M m)%nat.
Proof.
  intros Hwf. unfold stride. apply product_pos. now apply Forall_drop.
Qed.

Lemma nprocs_pos M : mesh_wf M -> (1 <= nprocs M)%nat.
Proof. apply product_pos. Qed.

(** A mesh dimension and everything behind it fit into the mesh. *)
Lemma size_stride_le (l : list nat) m :
  Forall (fun k => (1 <= k)%nat) l ->
  (default 1 (l !! m) * foldr Nat.mul 1 (drop (S m) l) <= foldr Nat.mul 1 l)%nat.
Proof.
  revert m. induction l as [|k l IH]; intros m Hl; simpl; [lia|].
  apply Forall_cons in Hl as [Hk Hl]. destruct m as [|m]; simpl.
  - rewrite drop_0. lia.
  - specialize (IH m Hl). nia.
Qed.

Lemma base_rank_lt M m j :
  mesh_wf M -> (j < mesh_dim_size M m)%nat -> (j * stride M m < nprocs M)%nat.
Proof.
  intros Hwf Hj. pose proof (size_stride_le (mesh_shape M) m Hwf) as Hle.
  pose proof (stride_pos M m Hwf) as Hs.
  unfold mesh_dim_size, stride, nprocs in *. nia.
Qed.

Lemma coord_at_base M m j :
  mesh_wf M -> (j < mesh_dim_size M m)%nat ->
  coord_at M m (j * stride M m) = j.
Proof.
  intros Hwf Hj. pose proof (stride_pos M m Hwf) as Hs. unfold coord_at.
  rewrite Nat.div_mul by lia. now apply Nat.mod_small.
Qed.

Lemma peer_base M m j i :
  mesh_wf M -> (j < mesh_dim_size M m)%nat ->
  peer M m (j * stride M m) i = (i * stride M m)%nat.
Proof.
  intros Hwf Hj. unfold peer. rewrite coord_at_base by assumption. lia.
Qed.

Lemma peer_zero M m i :
  mesh_wf M -> peer M m 0 i = (i * stride M m)%nat.
Proof.
  intros Hwf. pose proof (stride_pos M m Hwf) as Hs. unfold peer, coord_at.
  rewrite Nat.Div0.div_0_l, Nat.Div0.mod_0_l. lia.
Qed.

(** Ranks and coordinates only depend on the shape of the mesh. *)
Lemma same_shape_size M M' m :
  mesh_shape M = mesh_shape M' -> mesh_dim_size M m = mesh_dim_size M' m.
Proof. unfold mesh_dim_size. now intros ->. Qed.

Lemma same_shape_stride M M' m :
  mesh_shape M = mesh_shape M' -> stride M m = stride M' m.
Proof. unfold stride. now intros ->. Qed.

Lemma same_shape_coord M M' m r :
  mesh_shape M = mesh_shape M' -> coord_at M m r = coord_at M' m r.
Proof.
  intros H. unfold coord_at.
  now rewrite (same_shape_size M M' m H), (same_shape_stride M M' m H).
Qed.

Lemma same_shape_peer M M' m r j :
  mesh_shape M = mesh_shape M' -> peer M m r j = peer M' m r j.
Proof.
  intros H. unfold peer.
  now rewrite (same_shape_coord M M' m r H), (same_shape_stride M M' m H).
Qed.

Lemma same_shape_wf M M' :
  mesh_shape M = mesh_shape M' -> mesh_wf M -> mesh_wf M'.
Proof. unfold mesh_wf. now intros ->. Qed.
End MeshFacts.

Section ShardFacts.
Import Reshard.

Lemma count_shards_cons e dm :
  count_shards (e :: dm)
  = ((if e is Some _ then 1 else 0) + count_shards dm)%nat.
Proof.
  unfold count_shards. destruct e as [m|].
  - rewrite filter_cons_True by (eexists; reflexivity). reflexivity.
  - rewrite filter_cons_False by (intros [? ?]; discriminate). reflexivity.
Qed.

Lemma no_shards dm :
  count_shards dm = 0%nat ->
  forall a, find_shard dm a = None
            /\ forall m, axis_sharded_on dm m a = None.
Proof.
  induction dm as [|e dm IH]; intros Hc a; [split; reflexivity|].
  rewrite count_shards_cons in Hc. destruct e as [m0|]; [lia|].
  simpl in Hc. destruct (IH Hc (S a)) as [Hf Hx]. split; [exact Hf|].
  intros m. cbn [axis_sharded_on].
  rewrite bool_decide_eq_false_2 by discriminate. apply Hx.
Qed.

Lemma one_shard dm :
  count_shards dm = 1%nat ->
  forall a0, exists a m,
    find_shard dm a0 = Some (a, m)
    /\ Some m ∈ dm
    /\ axis_sharded_on dm m a0 = Some a
    /\ forall m', m' <> m -> axis_sharded_on dm m' a0 = None.
Proof.
  induction dm as [|e dm IH]; intros Hc a0; [discriminate|].
  rewrite count_shards_cons in Hc. destruct e as [m0|]; simpl in Hc.
  - exists a0, m0. destruct (no_shards dm ltac:(lia) (S a0)) as [_ Hx].
    split; [reflexivity|]. split; [apply list_elem_of_here|]. split.
    + cbn [axis_sharded_on]. now rewrite bool_decide_eq_true_2.
    + intros m' Hm'. cbn [axis_sharded_on].
      rewrite bool_decide_eq_false_2 by congruence. apply Hx.
  - destruct (IH Hc (S a0)) as (a & m & Hf & Hin & Hx & Hother).
    exists a, m. split; [exact Hf|].
    split; [now apply list_elem_of_further|]. split.
    + cbn [axis_sharded_on]. now rewrite bool_decide_eq_false_2.
    + intros m' Hm'. cbn [axis_sharded_on].
      rewrite bool_decide_eq_false_2 by discriminate. now apply Hother.
Qed.

Lemma find_shard_lt dm a0 a m :
  find_shard dm a0 = Some (a, m) ->
  (a < a0 + length dm)%nat /\ (a0 <= a)%nat.
Proof.
  revert a0. induction dm as [|e dm IH]; intros a0; [discriminate|].
  destruct e as [m0|]; simpl.
  - intros [= <- <-]. lia.
  - intros H. destruct (IH _ H). lia.
Qed.

Lemma replicated_inv A :
  is_replicated A = true ->
  partial_dims A = ∅ /\ count_shards (dims_mapping A) = 0%nat.
Proof.
  unfold is_replicated, no_partial. intros [H1 H2]%andb_prop.
  split; [now apply bool_decide_eq_true in H1
         | now apply bool_decide_eq_true in H2].
Qed.

Lemma sharded_inv A :
  is_sharded A = true ->
  partial_dims A = ∅ /\ count_shards (dims_mapping A) = 1%nat.
Proof.
  unfold is_sharded, no_partial. intros [H1 H2]%andb_prop.
  split; [now apply bool_decide_eq_true in H1
         | now apply bool_decide_eq_true in H2].
Qed.
End ShardFacts.

Section ValueFacts.
Import Reshard.
Context `{CL : CommLayer}.

(** Along mesh dimensions that neither shard nor are partial, the value is
    the one at the base rank. *)
Lemma gather_value_skip A loc ms base :
  (forall m, m ∈ ms ->
     (m ∉ partial_dims A)
     /\ axis_sharded_on (dims_mapping A) m 0 = None) ->
  gather_value A loc ms base = loc base.
Proof.
  revert base. induction ms as [|m ms IH]; intros base Hms; [reflexivity|].
  destruct (Hms m (list_elem_of_here _ _)) as [Hp Hx]. cbn [gather_value].
  rewrite bool_decide_eq_false_2 by exact Hp. rewrite Hx.
  apply IH. intros m' Hm'. apply Hms. now apply list_elem_of_further.
Qed.

Lemma gather_value_replicated A loc ms base :
  is_replicated A = true -> gather_value A loc ms base = loc base.
Proof.
  intros [Hp Hc]%replicated_inv. apply gather_value_skip. intros m _.
  split; [rewrite Hp; apply not_elem_of_empty|].
  apply (no_shards _ Hc 0%nat).
Qed.

Lemma gather_value_at_shard A loc ms1 ms2 a m base :
  partial_dims A = ∅ ->
  axis_sharded_on (dims_mapping A) m 0 = Some a ->
  (forall m', m' <> m -> axis_sharded_on (dims_mapping A) m' 0 = None) ->
  m ∉ ms1 -> m ∉ ms2 ->
  gather_value A loc (ms1 ++ m :: ms2) base
  = local_concat
      ((fun j => loc (base + j * stride (mesh A) m)%nat)
         <$> seq 0 (mesh_dim_size (mesh A) m)) a.
Proof.
  intros Hp Hx Hother Hm1 Hm2.
  assert (Hskip : forall b, gather_value A loc ms2 b = loc b).
  { intros b. apply gather_value_skip. intros m' Hm'. split.
    - rewrite Hp. apply not_elem_of_empty.
    - apply Hother. intros ->. contradiction. }
  revert base. induction ms1 as [|m1 ms1 IH]; intros base.
  - cbn [gather_value app]. rewrite bool_decide_eq_false_2
      by (rewrite Hp; apply not_elem_of_empty).
    rewrite Hx. f_equal. apply list_fmap_ext. intros _ j _. apply Hskip.
  - apply not_elem_of_cons in Hm1 as [Hne Hm1]. cbn [gather_value app].
    rewrite bool_decide_eq_false_2 by (rewrite Hp; apply not_elem_of_empty).
    rewrite (Hother m1) by congruence. now apply IH.
Qed.

(** The logical value of a replicated tensor is the buffer of rank 0. *)
Lemma logical_value_replicated t :
  is_replicated (attr t) = true -> logical_value t = locals t 0%nat.
Proof. intros H. unfold logical_value. now apply gather_value_replicated. Qed.

(** The logical value of a sharded tensor is the concatenation of the
    buffers along the sharding mesh dimension, in coordinate order. *)
Lemma logical_value_sharded t a m :
  attr_wf (attr t) ->
  is_sharded (attr t) = true ->
  find_shard (dims_mapping (attr t)) 0 = Some (a, m) ->
  logical_value t
  = local_concat
      ((fun j => locals t (j * stride (mesh (attr t)) m)%nat)
         <$> seq 0 (mesh_dim_size (mesh (attr t)) m)) a.
Proof.
  intros (_ & Hrange & _) [Hp Hc]%sharded_inv Hf.
  destruct (one_shard _ Hc 0%nat) as (a' & m' & Hf' & Hin & Hx & Hother).
  rewrite Hf in Hf'. injection Hf' as <- <-.
  destruct (Hrange m Hin) as [Hm _].
  unfold logical_value.
  set (n := length (mesh_shape (mesh (attr t)))) in *.
  replace (seq 0 n) with (seq 0 m ++ m :: seq (S m) (n - S m)).
  - rewrite (gather_value_at_shard (attr t) (locals t) _ _ a m 0%nat Hp Hx Hother).
    + reflexivity.
    + rewrite elem_of_seq. lia.
    + rewrite elem_of_seq. lia.
  - change (m :: seq (S m) (n - S m)) with (seq m (S (n - S m))).
    replace (seq m (S (n - S m))) with (seq (0 + m) (S (n - S m))) by reflexivity.
    rewrite <- seq_app. f_equal. lia.
Qed.
End ValueFacts.

Section RoundTripFacts.
Import Reshard.
Context `{CL : CommLayer} {laws : CommLayerLaws}.

Lemma slice_sizes_ok len k sizes :
  0 <= len -> 1 <= k ->
  slice_sizes len k = Ok sizes ->
  length sizes = Z.to_nat k
  /\ sum_sizes sizes = len
  /\ Forall (fun n => 0 <= n) sizes.
Proof.
  intros Hlen Hk. unfold slice_sizes.
  destruct (decide (len mod k = 0)) as [Hmod|Hmod].
  - intros [= <-]. rewrite length_replicate. split; [reflexivity|]. split.
    + rewrite sum_sizes_replicate, Z2Nat.id by lia.
      apply Z.mod_divide in Hmod as [q ->]; [|lia].
      rewrite Z.div_mul by lia. lia.
    + apply Forall_replicate. apply Z.div_pos; lia.
  - destruct (decide (last_slice_size len k <= 0)) as [Hle|Hgt]; [discriminate|].
    intros [= <-]. rewrite length_app, length_replicate. simpl.
    split; [lia|]. split.
    + rewrite sum_sizes_app, sum_sizes_replicate.
      unfold sum_sizes, last_slice_size. simpl. rewrite Z2Nat.id by lia. lia.
    + apply Forall_app. split.
      * apply Forall_replicate. unfold ceil_div. apply Z.div_pos; lia.
      * repeat constructor. lia.
Qed.

(** The slices that the processes along a mesh dimension cut out of equal
    buffers are the slices of that buffer, in order. *)
Lemma gathered_slices M M' (loc : nat -> Buffer) a m sizes :
  mesh_shape M' = mesh_shape M -> mesh_wf M ->
  length sizes = mesh_dim_size M m ->
  (forall r, (r < nprocs M)%nat -> loc r = loc 0%nat) ->
  all_gather M'
    (fun r => local_slice (loc r) a (slice_offset sizes (coord_at M m r))
                (default 0 (sizes !! coord_at M m r))) m 0
  = slices (loc 0%nat) a sizes.
Proof.
  intros Hshape Hwf Hlen Hloc. unfold all_gather, slices.
  rewrite (same_shape_size M' M m Hshape), Hlen.
  apply list_fmap_ext. intros i j Hj.
  apply lookup_seq in Hj as [-> Hi]. simpl.
  rewrite (same_shape_peer M' M m 0 i Hshape), peer_zero by assumption.
  rewrite coord_at_base by assumption.
  rewrite Hloc by now apply base_rank_lt. reflexivity.
Qed.

Lemma lookup_all_default (l : list Z) :
  (fun i => default 0 (l !! i)) <$> seq 0 (length l) = l.
Proof.
  apply list_eq. intros i. rewrite list_lookup_fmap.
  destruct (decide (i < length l)%nat) as [Hi|Hi].
  - rewrite lookup_seq_lt by exact Hi. simpl.
    destruct (lookup_lt_is_Some_2 l i Hi) as [x Hx]. now rewrite Hx.
  - rewrite lookup_seq_ge by lia. simpl. symmetry. apply lookup_ge_None. lia.
Qed.

(** Replicated to sharded and back: rank 0 gets its buffer back. *)
Lemma gather_of_slices M M' (loc : nat -> Buffer) a m sizes :
  mesh_shape M' = mesh_shape M -> mesh_wf M ->
  forall len, 0 <= len ->
  buffer_shape (loc 0%nat) !! a = Some len ->
  slice_sizes len (Z.of_nat (mesh_dim_size M m)) = Ok sizes ->
  (1 <= mesh_dim_size M m)%nat ->
  (forall r, (r < nprocs M)%nat -> loc r = loc 0%nat) ->
  local_concat
    (all_gather M'
       (fun r => local_slice (loc r) a (slice_offset sizes (coord_at M m r))
                   (default 0 (sizes !! coord_at M m r))) m 0) a
  = loc 0%nat.
Proof.
  intros Hshape Hwf len Hlen Hax Hsizes Hk Hloc.
  assert (Hk' : 1 <= Z.of_nat (mesh_dim_size M m)) by lia.
  destruct (slice_sizes_ok _ _ _ Hlen Hk' Hsizes) as (Hl & Hsum & Hpos).
  rewrite Nat2Z.id in Hl.
  rewrite (gathered_slices M M' loc a m sizes Hshape Hwf Hl Hloc).
  apply concat_slices; [exact Hpos | now rewrite Hsum].
Qed.

(** Sharded to replicated and back: the slices cut out of the gathered
    buffer concatenate to what the original slices concatenate to. *)
Lemma slices_of_gather M M' (loc : nat -> Buffer) a m len sizes :
  mesh_shape M' = mesh_shape M -> mesh_wf M ->
  0 <= len ->
  slice_sizes len (Z.of_nat (mesh_dim_size M m)) = Ok sizes ->
  (1 <= mesh_dim_size M m)%nat ->
  (forall r, (r < nprocs M)%nat ->
     buffer_shape (loc r) !! a = Some (default 0 (sizes !! coord_at M m r))) ->
  local_concat
    ((fun j =>
        (fun r => local_slice (local_concat (all_gather M' loc m r) a) a
                    (slice_offset sizes (coord_at M m r))
                    (default 0 (sizes !! coord_at M m r)))
          (j * stride M m)%nat)
       <$> seq 0 (mesh_dim_size M m)) a
  = local_concat
      ((fun j => loc (j * stride M m)%nat) <$> seq 0 (mesh_dim_size M m)) a.
Proof.
  intros Hshape Hwf Hlen Hsizes Hk Hax.
  assert (Hk' : 1 <= Z.of_nat (mesh_dim_size M m)) by lia.
  destruct (slice_sizes_ok _ _ _ Hlen Hk' Hsizes) as (Hl & Hsum & Hpos).
  rewrite Nat2Z.id in Hl.
  set (parts := (fun j => loc (j * stride M m)%nat)
                  <$> seq 0 (mesh_dim_size M m)).
  assert (Hgather : forall j, (j < mesh_dim_size M m)%nat ->
            all_gather M' loc m (j * stride M m) = parts).
  { intros j Hj. unfold all_gather, parts.
    rewrite (same_shape_size M' M m Hshape).
    apply list_fmap_ext. intros _ i _.
    rewrite (same_shape_peer M' M m _ i Hshape).
    now rewrite peer_base. }
  assert (Hparts : buffer_shape (local_concat parts a) !! a
                   = Some (sum_sizes sizes)).
  { rewrite shape_concat.
    - f_equal. unfold parts. rewrite <- list_fmap_compose.
      transitivity
        (sum_sizes
           ((fun i => default 0 (sizes !! i)) <$> seq 0 (length sizes)));
        [|now rewrite lookup_all_default].
      rewrite Hl. f_equal.
      apply list_fmap_ext. intros i j Hj. apply lookup_seq in Hj as [-> Hi].
      simpl. unfold axis_len. rewrite Hax by now apply base_rank_lt.
      simpl. now rewrite coord_at_base.
    - unfold parts. destruct (mesh_dim_size M m); [lia|discriminate].
    - unfold parts. apply Forall_fmap, Forall_forall. intros j Hj.
      apply elem_of_seq in Hj. simpl.
      rewrite Hax by (apply base_rank_lt; [assumption|lia]). eauto. }
  transitivity (local_concat (slices (local_concat parts a) a sizes) a).
  - f_equal. unfold slices. rewrite Hl. apply list_fmap_ext.
    intros i j Hj. apply lookup_seq in Hj as [-> Hi]. simpl.
    rewrite coord_at_base by assumption. now rewrite Hgather.
  - apply concat_slices; [exact Hpos | exact Hparts].
Qed.
End RoundTripFacts.

Section DispatchFacts.
Import Reshard.

Lemma p_to_r_kind_inv A B :
  p_to_r_kind A B = true -> no_partial A = false /\ no_partial B = true.
Proof.
  unfold p_to_r_kind. intros [[H1 H2]%andb_prop _]%andb_prop.
  apply negb_true_iff in H1. now split.
Qed.

Lemma r_to_s_kind_inv A B :
  r_to_s_kind A B = true ->
  is_replicated A = true /\ is_sharded B = true
  /\ length (dims_mapping A) = length (dims_mapping B).
Proof.
  unfold r_to_s_kind. intros [[H1 H2]%andb_prop H3]%andb_prop.
  apply bool_decide_eq_true in H3. now repeat split.
Qed.

Lemma replicated_not_sharded A :
  is_replicated A = true -> is_sharded A = true -> False.
Proof.
  intros [_ H0]%replicated_inv [_ H1]%sharded_inv. congruence.
Qed.

Lemma same_mesh_inv A B : same_mesh A B = true -> mesh A = mesh B.
Proof. apply bool_decide_eq_true. Qed.

Lemma cross_mesh_inv A B :
  cross_mesh A B = true ->
  mesh A <> mesh B /\ process_ids (mesh A) <> process_ids (mesh B).
Proof.
  unfold cross_mesh. intros H%bool_decide_eq_true.
  split; intros Heq; apply H; now rewrite Heq.
Qed.

Lemma relabelled_inv A B :
  relabelled A B = true ->
  mesh A <> mesh B /\ process_ids (mesh A) = process_ids (mesh B).
Proof.
  unfold relabelled.
  intros [[[H1 H2]%andb_prop _]%andb_prop _]%andb_prop.
  split; [now apply bool_decide_eq_true in H1
         | now apply bool_decide_eq_true in H2].
Qed.

Lemma is_suitable_transition f A B :
  is_suitable f A B = true -> Transition A B f.
Proof.
  destruct f; simpl.
  - intros [[H1 H2]%p_to_r_kind_inv H3%same_mesh_inv]%andb_prop.
    now constructor.
  - intros [[H1 H2]%p_to_r_kind_inv [H3 H4]%cross_mesh_inv]%andb_prop.
    now constructor.
  - intros [(H1 & H2 & Hl)%r_to_s_kind_inv H3%same_mesh_inv]%andb_prop.
    now constructor.
  - intros [(H1 & H2 & Hl)%r_to_s_kind_inv [H3 H4]%cross_mesh_inv]%andb_prop.
    now constructor.
  - unfold s_to_r_kind.
    intros [(H1 & H2 & Hl)%r_to_s_kind_inv H3%same_mesh_inv]%andb_prop.
    now constructor.
  - unfold s_to_r_kind.
    intros [(H1 & H2 & Hl)%r_to_s_kind_inv [H3 H4]%cross_mesh_inv]%andb_prop.
    now constructor.
  - intros [H%bool_decide_eq_true|H%relabelled_inv]%orb_prop;
      apply TrSame; auto.
Qed.

Lemma replicated_no_partial A : is_replicated A = true -> no_partial A = true.
Proof. unfold is_replicated. now intros [H _]%andb_prop. Qed.

Lemma sharded_no_partial A : is_sharded A = true -> no_partial A = true.
Proof. unfold is_sharded. now intros [H _]%andb_prop. Qed.

(** The transitions that can be taken in both directions. *)
Lemma mutual_transitions A B f g :
  Transition A B f -> Transition B A g ->
  (f = RToSReshardFunction /\ g = SToRReshardFunction)
  \/ (f = RToSReshardFunctionCrossMesh /\ g = SToRReshardFunctionCrossMesh)
  \/ (f = SToRReshardFunction /\ g = RToSReshardFunction)
  \/ (f = SToRReshardFunctionCrossMesh /\ g = RToSReshardFunctionCrossMesh)
  \/ (f = SameStatusReshardFunction /\ g = SameStatusReshardFunction).
Proof.
  intros Hf Hg.
  destruct Hf; destruct Hg;
    repeat match goal with
    | H : is_replicated _ = true |- _ =>
        pose proof (replicated_no_partial _ H);
        pose proof (proj2 (replicated_inv _ H)); clear H
    | H : is_sharded _ = true |- _ =>
        pose proof (sharded_no_partial _ H);
        pose proof (proj2 (sharded_inv _ H)); clear H
    | H : _ \/ _ |- _ => destruct H
    | H : _ /\ _ |- _ => destruct H
    end;
    subst; try congruence; auto 10.
Qed.
End DispatchFacts.

Section StrategyFacts.
Import Reshard.
Context `{CL : CommLayer} {laws : CommLayerLaws}.

Lemma mesh_dim_size_pos M m : mesh_wf M -> (1 <= mesh_dim_size M m)%nat.
Proof.
  intros Hwf. unfold mesh_dim_size.
  destruct (mesh_shape M !! m) as [k|] eqn:Hk; simpl; [|lia].
  unfold mesh_wf in Hwf. rewrite Forall_forall in Hwf. apply Hwf.
  eapply list_elem_of_lookup_2. exact Hk.
Qed.

Lemma default_nonneg (l : list Z) a :
  Forall (fun n => 0 <= n) l -> 0 <= default 0 (l !! a).
Proof.
  intros Hl. destruct (l !! a) as [n|] eqn:Hn; simpl; [|lia].
  rewrite Forall_forall in Hl. apply Hl. eapply list_elem_of_lookup_2.
  exact Hn.
Qed.

Lemma relocate_ok t M u :
  relocate t M = Ok u ->
  mesh_shape (mesh (attr t)) = mesh_shape M
  /\ mesh (attr u) = M
  /\ dims_mapping (attr u) = dims_mapping (attr t)
  /\ partial_dims (attr u) = partial_dims (attr t)
  /\ shape u = shape t
  /\ locals u = locals t.
Proof.
  unfold relocate.
  destruct (bool_decide (mesh_shape (mesh (attr t)) = mesh_shape M)) eqn:Hs;
    simpl; [|discriminate].
  apply bool_decide_eq_true in Hs.
  destruct (plays_two_roles _ _); [discriminate|].
  destruct (forallb _ _); [|discriminate].
  intros [= <-]. simpl. repeat split. exact Hs.
Qed.

Lemma r_to_s_ok u B t' a m :
  find_shard (dims_mapping B) 0 = Some (a, m) ->
  r_to_s u B = Ok t' ->
  exists sizes,
    slice_sizes (default 0 (shape u !! a))
      (Z.of_nat (mesh_dim_size (mesh B) m)) = Ok sizes
    /\ attr t' = B
    /\ shape t' = shape u
    /\ locals t'
       = fun r => local_slice (locals u r) a
                    (slice_offset sizes (coord_at (mesh B) m r))
                    (default 0 (sizes !! coord_at (mesh B) m r)).
Proof.
  intros Hf. unfold r_to_s. rewrite Hf.
  destruct (slice_sizes _ _) as [sizes|e]; [|discriminate].
  intros [= <-]. exists sizes. repeat split.
Qed.

Lemma s_to_r_ok u A t'' a m :
  find_shard (dims_mapping (attr u)) 0 = Some (a, m) ->
  s_to_r u A = Ok t'' ->
  attr t'' = A
  /\ shape t'' = shape u
  /\ locals t''
     = fun r => local_concat (all_gather (mesh (attr u)) (locals u) m r) a.
Proof.
  intros Hf. unfold s_to_r. rewrite Hf. intros [= <-]. repeat split.
Qed.

(** Replicated to sharded and back. *)
Lemma replicated_sharded_replicated t B A a m u t' u' t'' :
  tensor_wf t -> is_replicated (attr t) = true ->
  find_shard (dims_mapping B) 0 = Some (a, m) ->
  length (dims_mapping B) = length (shape t) ->
  mesh_shape (mesh B) = mesh_shape (mesh (attr t)) ->
  locals u = locals t -> shape u = shape t ->
  r_to_s u B = Ok t' ->
  locals u' = locals t' ->
  dims_mapping (attr u') = dims_mapping B ->
  mesh_shape (mesh (attr u')) = mesh_shape (mesh B) ->
  s_to_r u' A = Ok t'' ->
  attr t'' = A /\ locals t'' 0%nat = locals t 0%nat.
Proof.
  intros (Hattr & _ & Hshape & Hrep & _) Hr Hf HlB HB Hu Hus Hrs Hu' Hd' Hm' Hsr.
  destruct Hattr as (Hmesh & _).
  specialize (Hrep Hr).
  destruct (find_shard_lt _ _ _ _ Hf) as [Ha _]. simpl in Ha.
  destruct (lookup_lt_is_Some_2 (shape t) a ltac:(lia)) as [len Hlen].
  assert (HwfB : mesh_wf (mesh B))
    by (apply (same_shape_wf (mesh (attr t))); [now symmetry | exact Hmesh]).
  destruct (r_to_s_ok u B t' a m Hf Hrs) as (sizes & Hsizes & _ & _ & Hloc').
  rewrite <- Hd' in Hf.
  destruct (s_to_r_ok u' A t'' a m Hf Hsr) as (HA & _ & Hloc'').
  split; [exact HA|].
  rewrite Hloc'', Hu', Hloc', Hu.
  apply (gather_of_slices (mesh B) (mesh (attr u')) (locals t) a m sizes
           Hm' HwfB len).
  - pose proof (default_nonneg (shape t) a Hshape) as Hn.
    now rewrite Hlen in Hn.
  - now rewrite (proj2 (Hrep 0%nat (nprocs_pos _ Hmesh))).
  - rewrite Hus, Hlen in Hsizes. exact Hsizes.
  - now apply mesh_dim_size_pos.
  - intros r Hlt. apply Hrep. unfold nprocs in *. now rewrite <- HB.
Qed.

(** Sharded to replicated and back. *)
Lemma sharded_replicated_sharded t B a m u t' u' :
  tensor_wf t -> is_sharded (attr t) = true ->
  find_shard (dims_mapping (attr t)) 0 = Some (a, m) ->
  locals u = locals t -> shape u = shape t ->
  dims_mapping (attr u) = dims_mapping (attr t) ->
  mesh_shape (mesh (attr u)) = mesh_shape (mesh (attr t)) ->
  s_to_r u B = Ok t' ->
  locals u' = locals t' -> shape u' = shape t' ->
  exists t'',
    r_to_s u' (attr t) = Ok t''
    /\ attr t'' = attr t
    /\ logical_value t'' = logical_value t.
Proof.
  intros (Hattr & _ & Hshape & _ & Hsh) Hs Hf Hu Hus Hud Hum Hsr Hu' Hus'.
  destruct (Hsh Hs a m Hf) as (sizes & Hsizes & Hax).
  assert (Hfu : find_shard (dims_mapping (attr u)) 0 = Some (a, m))
    by now rewrite Hud.
  destruct (s_to_r_ok u B t' a m Hfu Hsr) as (_ & Hshape' & Hloc').
  unfold r_to_s. rewrite Hf, Hus', Hshape', Hus, Hsizes.
  eexists. split; [reflexivity|]. split; [reflexivity|].
  rewrite (logical_value_sharded _ a m); [|exact Hattr|exact Hs|exact Hf].
  rewrite (logical_value_sharded t a m Hattr Hs Hf).
  cbn [attr locals]. rewrite Hu', Hloc', Hu.
  destruct Hattr as (Hmesh & _).
  apply (slices_of_gather (mesh (attr t)) (mesh (attr u)) (locals t) a m
           (default 0 (shape t !! a)) sizes); try assumption.
  - now apply default_nonneg.
  - now apply mesh_dim_size_pos.
Qed.

Lemma execute_attr f t B t' :
  execute f t B = Ok t' -> attr t' = B.
Proof.
  assert (Hp : forall u, p_to_r u B = Ok t' -> attr t' = B).
  { intros u. unfold p_to_r.
    destruct (all_reduce_dims _ _ _); [|discriminate]. now intros [= <-]. }
  assert (Hr : forall u, r_to_s u B = Ok t' -> attr t' = B).
  { intros u. unfold r_to_s. destruct (find_shard _ _) as [[a m]|].
    - destruct (slice_sizes _ _); [|discriminate]. now intros [= <-].
    - now intros [= <-]. }
  assert (Hs : forall u, s_to_r u B = Ok t' -> attr t' = B).
  { intros u. unfold s_to_r.
    destruct (find_shard _ _) as [[a m]|]; now intros [= <-]. }
  destruct f; simpl; unfold cross_mesh_then;
    try (destruct (relocate t (mesh B)); [|discriminate]);
    first [apply Hp | apply Hr | apply Hs | idtac].
  unfold same_status. now intros [= <-].
Qed.

Lemma reshard_inv t B t' :
  reshard t B = Ok t' ->
  exists f, Transition (attr t) B f /\ execute f t B = Ok t' /\ attr t' = B.
Proof.
  unfold reshard.
  destruct (find is_suitable startup_registry (attr t) B (shape t))
    as [f|e] eqn:Hfind; [|discriminate].
  intros Hex. exists f.
  apply find_ok_first in Hfind as (_ & _ & _ & _ & Hsuit).
  split; [now apply is_suitable_transition|].
  split; [exact Hex | now apply (execute_attr f t B)].
Qed.

(** A round trip that goes through leaves the attr and the logical value
    as they were. *)
Lemma round_trip_value t B t' t'' :
  tensor_wf t ->
  reshard t B = Ok t' -> reshard t' (attr t) = Ok t'' ->
  attr t'' = attr t /\ logical_value t'' = logical_value t.
Proof.
  intros Hwf (f & Hf & Hex1 & HB)%reshard_inv (g & Hg & Hex2 & HA)%reshard_inv.
  split; [exact HA|].
  assert (Hg' : Transition B (attr t) g) by now rewrite <- HB.
  pose proof Hwf as (_ & Hlen & _).
  destruct (mutual_transitions _ _ _ _ Hf Hg')
    as [[-> ->]|[[-> ->]|[[-> ->]|[[-> ->]|[-> ->]]]]];
    simpl in Hex1, Hex2; inversion Hf; inversion Hg'.
  - (* replicated to sharded and back, on one mesh *)
    destruct (one_shard (dims_mapping B)
                (proj2 (sharded_inv _ ltac:(eassumption))) 0%nat)
      as (a & m & Hfs & _).
    destruct (replicated_sharded_replicated t B (attr t) a m t t' t' t'')
      as [_ Hv]; try assumption; try reflexivity;
      try (rewrite HB; reflexivity); try congruence.
    rewrite (logical_value_replicated t'') by congruence.
    now rewrite (logical_value_replicated t).
  - (* replicated to sharded and back, across meshes *)
    unfold cross_mesh_then in Hex1, Hex2.
    destruct (relocate t (mesh B)) as [u|] eqn:Hu; [|discriminate].
    destruct (relocate t' (mesh (attr t))) as [u'|] eqn:Hu'; [|discriminate].
    apply relocate_ok in Hu as (Hs1 & Hm1 & Hd1 & _ & Hsh1 & Hl1).
    apply relocate_ok in Hu' as (Hs2 & Hm2 & Hd2 & _ & Hsh2 & Hl2).
    rewrite HB in Hs2, Hd2.
    destruct (one_shard (dims_mapping B)
                (proj2 (sharded_inv _ ltac:(eassumption))) 0%nat)
      as (a & m & Hfs & _).
    destruct (replicated_sharded_replicated t B (attr t) a m u t' u' t'')
      as [_ Hv]; try assumption; try congruence.
    rewrite (logical_value_replicated t'') by congruence.
    now rewrite (logical_value_replicated t).
  - (* sharded to replicated and back, on one mesh *)
    destruct (one_shard (dims_mapping (attr t))
                (proj2 (sharded_inv _ ltac:(eassumption))) 0%nat)
      as (a & m & Hfs & _).
    destruct (sharded_replicated_sharded t B a m t t' t')
      as (t0 & Ht0 & _ & Hv); try assumption; try reflexivity.
    congruence.
  - (* sharded to replicated and back, across meshes *)
    unfold cross_mesh_then in Hex1, Hex2.
    destruct (relocate t (mesh B)) as [u|] eqn:Hu; [|discriminate].
    destruct (relocate t' (mesh (attr t))) as [u'|] eqn:Hu'; [|discriminate].
    apply relocate_ok in Hu as (Hs1 & Hm1 & Hd1 & _ & Hsh1 & Hl1).
    apply relocate_ok in Hu' as (Hs2 & Hm2 & Hd2 & _ & Hsh2 & Hl2).
    destruct (one_shard (dims_mapping (attr t))
                (proj2 (sharded_inv _ ltac:(eassumption))) 0%nat)
      as (a & m & Hfs & _).
    destruct (sharded_replicated_sharded t B a m u t' u')
      as (t0 & Ht0 & _ & Hv); try assumption; try congruence.
  - (* same status: nothing moves *)
    unfold same_status in Hex1, Hex2.
    injection Hex1 as Ht'. subst t'. injection Hex2 as Ht''. subst t''.
    reflexivity.
Qed.

(** The way back goes through whenever the way there did, provided, across
    meshes, that the relocation back does. *)
Lemma round_trip_returns t B t' g :
  tensor_wf t ->
  mesh B = mesh (attr t) \/ is_ok (relocate t' (mesh (attr t))) = true ->
  reshard t B = Ok t' ->
  find is_suitable startup_registry B (attr t) (shape t') = Ok g ->
  exists t'', reshard t' (attr t) = Ok t''.
Proof.
  intros Hwf Hback (f & Hf & Hex1 & HB)%reshard_inv Hfind.
  unfold reshard. rewrite HB, Hfind.
  apply find_ok_first in Hfind as (_ & _ & _ & _ & Hg%is_suitable_transition).
  assert (Hs : forall u A, exists t'', s_to_r u A = Ok t'').
  { intros u A. unfold s_to_r. destruct (find_shard _ _) as [[a m]|]; eauto. }
  destruct (mutual_transitions _ _ _ _ Hf Hg)
    as [[-> ->]|[[-> ->]|[[-> ->]|[[-> ->]|[-> ->]]]]];
    simpl in Hex1 |- *; inversion Hf; inversion Hg.
  - apply Hs.
  - destruct Hback as [Hback|Hback]; [congruence|].
    unfold cross_mesh_then.
    destruct (relocate t' (mesh (attr t))); [apply Hs|discriminate].
  - destruct (one_shard (dims_mapping (attr t))
                (proj2 (sharded_inv _ ltac:(eassumption))) 0%nat)
      as (a & m & Hfs & _).
    destruct (sharded_replicated_sharded t B a m t t' t')
      as (t0 & Ht0 & _); try assumption; try reflexivity.
    eauto.
  - destruct Hback as [Hback|Hback]; [congruence|].
    unfold cross_mesh_then in Hex1 |- *.
    destruct (relocate t (mesh B)) as [u|] eqn:Hu; [|discriminate].
    destruct (relocate t' (mesh (attr t))) as [u'|] eqn:Hu'; [|discriminate].
    apply relocate_ok in Hu as (Hs1 & Hm1 & Hd1 & _ & Hsh1 & Hl1).
    apply relocate_ok in Hu' as (Hs2 & Hm2 & Hd2 & _ & Hsh2 & Hl2).
    destruct (one_shard (dims_mapping (attr t))
                (proj2 (sharded_inv _ ltac:(eassumption))) 0%nat)
      as (a & m & Hfs & _).
    destruct (sharded_replicated_sharded t B a m u t' u')
      as (t0 & Ht0 & _); try assumption; try congruence.
    eauto.
  - unfold same_status. eauto.
Qed.
End StrategyFacts.

Section ListCommFacts.
Import Reshard.

Lemma list_slices_cons (b : list Z) a n rest :
  0 <= n -> Forall (fun k => 0 <= k) rest ->
  slices (CL := list_comm) b a (n :: rest)
  = take (Z.to_nat n) b
    :: slices (CL := list_comm) (drop (Z.to_nat n) b) a rest.
Proof.
  intros Hn Hrest. unfold slices. cbn [length].
  rewrite <- cons_seq, <- fmap_S_seq. cbn [fmap list_fmap].
  f_equal.
  rewrite <- list_fmap_compose. apply list_fmap_ext. intros _ i _.
  cbn [compose local_slice list_comm lookup list_lookup].
  unfold slice_offset. cbn [take sum_sizes foldr].
  fold (sum_sizes (take i rest)).
  assert (0 <= sum_sizes (take i rest)).
  { clear -Hrest. revert i. induction Hrest as [|k rest Hk _ IH];
      intros [|i]; cbn; try lia. specialize (IH i). unfold sum_sizes in *.
    lia. }
  rewrite Z2Nat.inj_add by lia. now rewrite drop_drop.
Qed.

Lemma list_concat_slices (sizes : list Z) : forall (b : list Z) a,
  Forall (fun k => 0 <= k) sizes ->
  sum_sizes sizes = Z.of_nat (length b) ->
  concat (slices (CL := list_comm) b a sizes) = b.
Proof.
  induction sizes as [|n rest IH]; intros b a Hpos Hsum.
  - destruct b; [reflexivity|]. cbn in Hsum. lia.
  - apply Forall_cons in Hpos as [Hn Hrest].
    rewrite list_slices_cons by assumption. cbn [concat].
    assert (Hr : 0 <= sum_sizes rest).
    { clear -Hrest. induction Hrest; cbn; [lia|]. unfold sum_sizes in *. lia. }
    change (sum_sizes (n :: rest)) with (n + sum_sizes rest) in Hsum.
    rewrite IH; [apply take_drop | exact Hrest |].
    rewrite length_drop. lia.
Qed.

Lemma list_concat_length (bs : list (list Z)) :
  Z.of_nat (length (concat bs))
  = sum_sizes ((fun b => axis_len (CL := list_comm) b 0) <$> bs).
Proof.
  induction bs as [|b bs IH]; [reflexivity|].
  cbn [concat fmap list_fmap]. rewrite length_app, Nat2Z.inj_add, IH.
  reflexivity.
Qed.

Lemma list_comm_laws : CommLayerLaws (CL := list_comm).
Proof.
  split.
  - intros b a sizes Hpos Hshape. destruct a as [|a]; [|discriminate].
    injection Hshape as Hshape. now apply list_concat_slices.
  - intros bs a Hne Hall. destruct bs as [|b0 bs]; [contradiction|].
    apply Forall_cons in Hall as [[x Hx] _].
    destruct a as [|a]; [|discriminate].
    cbn [buffer_shape local_concat list_comm lookup list_lookup].
    f_equal. apply list_concat_length.
Qed.
End ListCommFacts.

Section ExampleFacts.
Import Reshard.

Lemma replicated_on_3_wf : attr_wf replicated_on_3.
Proof.
  split; [repeat constructor|]. split; [|split].
  - intros m Hm. apply list_elem_of_singleton in Hm. discriminate.
  - intros m Hm. now apply not_elem_of_empty in Hm.
  - intros [|a] a' m Ha; discriminate.
Qed.

Lemma replicated_vector_wf (b : list Z) :
  tensor_wf (CL := list_comm)
    (@Build_DistTensor list_comm replicated_on_3
       [Z.of_nat (length b)] (fun _ => b)).
Proof.
  split; [exact replicated_on_3_wf|]. split; [reflexivity|].
  split; [repeat constructor; lia|]. split.
  - intros _ r _. split; reflexivity.
  - intros H. vm_compute in H. discriminate.
Qed.

Lemma sharded_on_3_wf : attr_wf sharded_on_3.
Proof.
  split; [repeat constructor|]. split; [|split].
  - intros m Hm. apply list_elem_of_singleton in Hm. injection Hm as ->.
    split; [simpl; lia | apply not_elem_of_empty].
  - intros m Hm. now apply not_elem_of_empty in Hm.
  - intros [|a] [|a'] m Ha Ha'; try discriminate; reflexivity.
Qed.

(** The sharded vector is well formed too: its local buffers have the slice
    sizes 4, 4 and 2. *)
Lemma vector_10_sharded_wf : tensor_wf (CL := list_comm) vector_10_sharded.
Proof.
  split; [exact sharded_on_3_wf|]. split; [reflexivity|].
  split; [repeat constructor; lia|]. split.
  - intros H. vm_compute in H. discriminate.
  - intros _ a m Hf. injection Hf as <- <-. exists [4; 4; 2].
    split; [reflexivity|].
    intros [|[|[|r]]] Hr; try reflexivity. vm_compute in Hr. lia.
Qed.
End ExampleFacts.



(* ===================================================================== *)
(** * Properties of the compile cache                                     *)
(* ===================================================================== *)

Section KeyFacts.
Import CompileCache.
Context `{RT : Runtime}.

Lemma key_fn_ok context sir_name kwargs sir :
  get_sir context sir_name = Ok sir ->
  key_fn context sir_name kwargs = Ok (hash (str sir)).
Proof. intros H. unfold key_fn, mbind, result_bind. now rewrite H. Qed.

Lemma key_fn_err context sir_name kwargs e :
  get_sir context sir_name = Err e ->
  key_fn context sir_name kwargs = Err e.
Proof. intros H. unfold key_fn, mbind, result_bind. now rewrite H. Qed.

Lemma key_fn_kwargs context sir_name kwargs1 kwargs2 :
  key_fn context sir_name kwargs1 = key_fn context sir_name kwargs2.
Proof. reflexivity. Qed.

Lemma value_fn_ok context sir_name kwargs w :
  value_fn context sir_name kwargs = Ok w ->
  exists fn sir,
    compile_sir context sir_name = Ok fn
    /\ get_sir context sir_name = Ok sir
    /\ w = init (static_function fn (kwargs !! "build_strategy")
                   (kwargs !! "backend") false) sir.
Proof.
  unfold value_fn, to_static, mbind, result_bind, mret, result_ret.
  destruct (compile_sir context sir_name) as [fn|e]; [|discriminate].
  destruct (to_static_check fn _ _ false) as [[]|e]; [|discriminate].
  destruct (get_sir context sir_name) as [sir|e]; [|discriminate].
  intros [= <-]. eauto.
Qed.

Lemma cache_call_again cache context sir_name kwargs1 kwargs2 w cache' :
  cache_call cache context sir_name kwargs1 = Ok (w, cache') ->
  cache_call cache' context sir_name kwargs2 = Ok (w, cache').
Proof.
  unfold cache_call.
  rewrite (key_fn_kwargs context sir_name kwargs2 kwargs1).
  destruct (key_fn context sir_name kwargs1) as [k|e];
    unfold mbind, result_bind, mret, result_ret; [|discriminate].
  destruct (cache !! k) as [v|] eqn:Hk.
  - intros [= <- <-]. now rewrite Hk.
  - destruct (value_fn context sir_name kwargs1) as [v|e]; [|discriminate].
    intros [= <- <-]. now rewrite lookup_insert_eq.
Qed.
End KeyFacts.

(** C7. The key function returns the hash of the string form of the SIR that
    the context holds under the given name (and raises what the lookup
    raises when there is none); so two contexts whose named SIRs have the
    same string form get the same cache key. *)
Theorem key_fn_is_hash_of_str_of_sir :
  forall (RT : CompileCache.Runtime),
    (forall context sir_name kwargs sir,
        CompileCache.get_sir context sir_name = Ok sir ->
        CompileCache.key_fn context sir_name kwargs
        = Ok (CompileCache.hash (CompileCache.str sir)))
    /\ (forall context sir_name kwargs e,
        CompileCache.get_sir context sir_name = Err e ->
        CompileCache.key_fn context sir_name kwargs = Err e)
    /\ (forall context1 context2 sir_name1 sir_name2 kwargs1 kwargs2 sir1 sir2,
        CompileCache.get_sir context1 sir_name1 = Ok sir1 ->
        CompileCache.get_sir context2 sir_name2 = Ok sir2 ->
        CompileCache.str sir1 = CompileCache.str sir2 ->
        CompileCache.key_fn context1 sir_name1 kwargs1
        = CompileCache.key_fn context2 sir_name2 kwargs2).
Proof.
  intros RT. split; [|split].
  - intros. now apply key_fn_ok.
  - intros. now apply key_fn_err.
  - intros c1 c2 n1 n2 k1 k2 s1 s2 H1 H2 Hstr.
    rewrite (key_fn_ok c1 n1 k1 s1 H1), (key_fn_ok c2 n2 k2 s2 H2).
    now rewrite Hstr.
Qed.

(** C7 on two different contexts that hold the same statements under
    "SIR_0", called with different keyword arguments. *)
Lemma key_fn_is_hash_of_str_of_sir_witness :
  CompileCache.key_fn (RT := CompileCache.toy_runtime)
    CompileCache.toy_context_1 "SIR_0" ∅
  = CompileCache.key_fn (RT := CompileCache.toy_runtime)
      CompileCache.toy_context_2 "SIR_0" {[ "backend" := "CINN" ]}
  /\ CompileCache.key_fn (RT := CompileCache.toy_runtime)
       CompileCache.toy_context_1 "SIR_0" ∅ = Ok 49417.
Proof.
  destruct (key_fn_is_hash_of_str_of_sir CompileCache.toy_runtime)
    as (Hok & _ & Hsame).
  split.
  - apply (Hsame CompileCache.toy_context_1 CompileCache.toy_context_2
             "SIR_0" "SIR_0" ∅ {[ "backend" := "CINN" ]}
             ["x = a + b"; "return x"] ["x = a + b"; "return x"]);
      reflexivity.
  - rewrite (Hok CompileCache.toy_context_1 "SIR_0" ∅
               ["x = a + b"; "return x"] eq_refl).
    vm_compute. reflexivity.
Defined.

(** C8. The cache key does not depend on the keyword arguments, whereas the
    wrapper that [value_fn] builds carries the [build_strategy] and [backend]
    it was called with; so once a wrapper has been produced for a key under
    one set of keyword arguments, a request for the same context and name
    under any other keyword arguments gets that same wrapper. *)
Theorem key_fn_ignores_kwargs :
  forall (RT : CompileCache.Runtime),
    (forall context sir_name kwargs1 kwargs2,
        CompileCache.key_fn context sir_name kwargs1
        = CompileCache.key_fn context sir_name kwargs2)
    /\ (forall context sir_name (kwargs : CompileCache.Kwargs) w,
        CompileCache.value_fn context sir_name kwargs = Ok w ->
        CompileCache.sf_build_strategy (CompileCache.compiled_fn w)
        = kwargs !! "build_strategy"
        /\ CompileCache.sf_backend (CompileCache.compiled_fn w)
           = kwargs !! "backend")
    /\ (forall context sir_name (kwargs1 kwargs2 : CompileCache.Kwargs)
               w cache',
        CompileCache.cache_call ∅ context sir_name kwargs1 = Ok (w, cache') ->
        CompileCache.value_fn context sir_name kwargs1 = Ok w
        /\ CompileCache.sf_build_strategy (CompileCache.compiled_fn w)
           = kwargs1 !! "build_strategy"
        /\ CompileCache.sf_backend (CompileCache.compiled_fn w)
           = kwargs1 !! "backend"
        /\ CompileCache.cache_call cache' context sir_name kwargs2
           = Ok (w, cache')).
Proof.
  intros RT. split; [|split].
  - intros. apply key_fn_kwargs.
  - intros context sir_name kwargs w Hw.
    destruct (value_fn_ok _ _ _ _ Hw) as (fn & sir & _ & _ & ->).
    split; reflexivity.
  - intros context sir_name kwargs1 kwargs2 w cache' Hcall.
    assert (Hv : CompileCache.value_fn context sir_name kwargs1 = Ok w).
    { revert Hcall. unfold CompileCache.cache_call.
      destruct (CompileCache.key_fn context sir_name kwargs1) as [k|e];
        unfold mbind, CompileCache.result_bind, mret, CompileCache.result_ret;
        [|discriminate].
      rewrite lookup_empty.
      destruct (CompileCache.value_fn context sir_name kwargs1) as [v|e];
        [|discriminate].
      now intros [= <- _]. }
    split; [exact Hv|].
    destruct (value_fn_ok _ _ _ _ Hv) as (fn & sir & _ & _ & ->).
    split; [reflexivity|]. split; [reflexivity|].
    now apply (cache_call_again ∅ context sir_name kwargs1 kwargs2).
Qed.

(** C8 on a request under build strategy "A" followed by one under "B": the
    second request is served the wrapper compiled under "A". *)
Lemma key_fn_ignores_kwargs_witness :
  CompileCache.cache_call (RT := CompileCache.toy_runtime) ∅
    CompileCache.toy_context_1 "SIR_0" CompileCache.toy_kwargs_A
  = Ok (CompileCache.toy_wrapper_A, CompileCache.toy_cache_A)
  /\ CompileCache.cache_call (RT := CompileCache.toy_runtime)
       CompileCache.toy_cache_A
       CompileCache.toy_context_1 "SIR_0" CompileCache.toy_kwargs_B
     = Ok (CompileCache.toy_wrapper_A, CompileCache.toy_cache_A)
  /\ CompileCache.sf_build_strategy
       (CompileCache.compiled_fn CompileCache.toy_wrapper_A) = Some "A".
Proof.
  destruct (key_fn_ignores_kwargs CompileCache.toy_runtime) as (_ & _ & H).
  assert (Hfirst :
    CompileCache.cache_call (RT := CompileCache.toy_runtime) ∅
      CompileCache.toy_context_1 "SIR_0" CompileCache.toy_kwargs_A
    = Ok (CompileCache.toy_wrapper_A, CompileCache.toy_cache_A))
    by reflexivity.
  split; [exact Hfirst|].
  destruct (H CompileCache.toy_context_1 "SIR_0" CompileCache.toy_kwargs_A
              CompileCache.toy_kwargs_B _ _ Hfirst)
    as (_ & Hbs & _ & Hagain).
  split; [exact Hagain | exact Hbs].
Defined.

Section WrapperFacts.
Import CompileCache.
Context `{RT : Runtime}.
Variable ext : Callables.
Variable log_enabled : Z -> bool.
Variable need_back_trace : bool.

Lemma events_since_app m m' evs :
  trace m' = trace m ++ evs -> events_since m m' = evs.
Proof. intros H. unfold events_since. rewrite H. apply drop_app_length. Qed.

(** Unfold one call of the wrapper down to its case analysis. *)
Ltac unfold_call :=
  unfold CompileCache.call, log_do, mbind, M_bind, mret, M_ret,
    get_self, emit, lift_pure, on_store, set_programs, raise,
    clear_eager_tensor_name;
  simpl.

Ltac step_call :=
  match goal with
  | H : run_static_function ?e ?f ?a ?s = _
    |- context [run_static_function ?e ?f ?a ?s] => rewrite H
  | H : run_partial_program ?e ?p ?a ?s = _
    |- context [run_partial_program ?e ?p ?a ?s] => rewrite H
  | H : static_get_concrete_program ?e ?f ?a = _
    |- context [static_get_concrete_program ?e ?f ?a] => rewrite H
  | H : log_enabled ?l = _ |- context [log_enabled ?l] => rewrite H
  | |- context [if need_back_trace then _ else _] => destruct need_back_trace
  | |- context [log_enabled ?l] =>
      let E := fresh "Hlog" in destruct (log_enabled l) eqn:E
  | |- context [static_get_concrete_program ?e ?f ?a] =>
      let E := fresh "Hget" in
      destruct (static_get_concrete_program e f a) as [[? ?]|?] eqn:E
  | |- context [run_static_function ?e ?f ?a ?s] =>
      let E := fresh "Hrun" in
      destruct (run_static_function e f a s) as [[?|?] ?] eqn:E
  | |- context [run_partial_program ?e ?f ?a ?s] =>
      let E := fresh "Hrun" in
      destruct (run_partial_program e f a s) as [[?|?] ?] eqn:E
  end; simpl.

Ltac split_call := repeat step_call.

(** The events of a finished call, read off its trace. *)
Ltac read_events :=
  erewrite events_since_app by (simpl; rewrite <- ?app_assoc; reflexivity);
  simpl.

(** Goals about an explicit list of events. *)
Ltac none_compiles :=
  repeat (apply Forall_cons; split; [reflexivity|]); apply Forall_nil.
Ltac event_listed :=
  repeat first [apply list_elem_of_here | apply list_elem_of_further].

(** The trace only grows. *)
Lemma call_trace_extends args m :
  exists evs,
    trace (call ext log_enabled need_back_trace args m).2 = trace m ++ evs.
Proof.
  destruct m as [[fn [pp|] cp sir] st tr]; unfold_call; split_call;
    try destruct cp; simpl;
    rewrite <- ?app_assoc; try (eexists; reflexivity).
  all: exists []; now rewrite app_nil_r.
Qed.

(** Names that are already empty stay empty, and the names of the listed
    tensors become empty. *)
Lemma clear_names_empty output_tensors st r :
  r ∈ output_tensors \/ name (st r) = "" ->
  name (clear_names output_tensors st r) = "".
Proof.
  revert st. induction output_tensors as [|o outs IH]; intros st [Hin|Hnm].
  - now apply elem_of_nil in Hin.
  - exact Hnm.
  - simpl. apply IH. apply elem_of_cons in Hin as [->|Hin]; [right|now left].
    unfold set_name. now rewrite decide_True.
  - simpl. apply IH. right. unfold set_name.
    destruct (decide (r = o)); [reflexivity | exact Hnm].
Qed.

(** The compile branch: what a call does on a wrapper that has no partial
    program yet. *)
Lemma call_first args m :
  partial_program (self m) = None ->
  let fn := compiled_fn (self m) in
  forall outs st' cp pp,
    run_static_function ext fn args (store m) = (Ok outs, st') ->
    static_get_concrete_program ext fn args = Ok (cp, pp) ->
    (call ext log_enabled need_back_trace args m).1 = Ok outs
    /\ self (call ext log_enabled need_back_trace args m).2
       = {| compiled_fn := fn; partial_program := Some pp;
            concrete_program := Some cp; SIR := SIR (self m) |}
    /\ store (call ext log_enabled need_back_trace args m).2
       = clear_names outs st'
    /\ CallCompiledFn fn args
       ∈ events_since m (call ext log_enabled need_back_trace args m).2.
Proof.
  destruct m as [[fn ppo cpo sir] st tr]. simpl. intros -> outs st' cp pp.
  intros Hrun Hget. unfold_call.
  split_call; repeat split; read_events; event_listed.
Qed.

(** A call that returns on a wrapper without a partial program has run the
    compile branch to its end. *)
Lemma call_first_returned args m outs :
  partial_program (self m) = None ->
  (call ext log_enabled need_back_trace args m).1 = Ok outs ->
  exists st' cp pp,
    run_static_function ext (compiled_fn (self m)) args (store m)
    = (Ok outs, st')
    /\ static_get_concrete_program ext (compiled_fn (self m)) args
       = Ok (cp, pp)
    /\ partial_program (self (call ext log_enabled need_back_trace args m).2)
       = Some pp
    /\ concrete_program (self (call ext log_enabled need_back_trace args m).2)
       = Some cp
    /\ store (call ext log_enabled need_back_trace args m).2
       = clear_names outs st'.
Proof.
  destruct m as [[fn ppo cpo sir] st tr]. simpl. intros ->.
  unfold_call. split_call; try discriminate.
  all: intros [= <-]; eexists _, _, _; repeat split; reflexivity.
Qed.

(** The cached branch: what a call does on a wrapper that holds a partial
    program. *)
Lemma call_cached args m pp :
  partial_program (self m) = Some pp ->
  self (call ext log_enabled need_back_trace args m).2 = self m
  /\ Forall (fun ev => is_call_compiled_fn ev = false)
       (events_since m (call ext log_enabled need_back_trace args m).2)
  /\ ((exists e, log_enabled 4 = true
                 /\ static_get_concrete_program ext (compiled_fn (self m)) args
                    = Err e)
      \/ CallPartialProgram pp args
         ∈ events_since m (call ext log_enabled need_back_trace args m).2)
  /\ (forall outs,
        (call ext log_enabled need_back_trace args m).1 = Ok outs ->
        exists st',
          run_partial_program ext pp args (store m) = (Ok outs, st')
          /\ store (call ext log_enabled need_back_trace args m).2
             = clear_names outs st').
Proof.
  destruct m as [[fn ppo cpo sir] st tr]. simpl. intros ->.
  unfold_call. split_call; destruct cpo; simpl.
  all: split; [reflexivity|].
  all: split; [read_events; none_compiles|].
  all: split.
  all: first
    [ left; eexists; split; reflexivity
    | right; read_events; event_listed
    | intros outs [= <-]; eexists; split; reflexivity
    | intros outs; discriminate ].
Qed.

(** When the partial program returns, so does the call (given that what
    logging evaluates does not raise). *)
Lemma call_cached_returns args m pp outs st' :
  partial_program (self m) = Some pp ->
  run_partial_program ext pp args (store m) = (Ok outs, st') ->
  (log_enabled 4 = true ->
   is_ok (static_get_concrete_program ext (compiled_fn (self m)) args) = true) ->
  (log_enabled 1 = true -> is_Some (concrete_program (self m))) ->
  (call ext log_enabled need_back_trace args m).1 = Ok outs.
Proof.
  destruct m as [[fn ppo cpo sir] st tr]. simpl. intros -> Hrun Hget Hcp.
  unfold_call. split_call; try reflexivity.
  all: try (specialize (Hget eq_refl); discriminate).
  all: destruct cpo; [reflexivity|]; destruct (Hcp eq_refl); discriminate.
Qed.


Lemma calls_cached argss m pp :
  partial_program (self m) = Some pp ->
  self (calls ext log_enabled need_back_trace argss m) = self m
  /\ exists evs,
       trace (calls ext log_enabled need_back_trace argss m) = trace m ++ evs
       /\ Forall (fun ev => is_call_compiled_fn ev = false) evs.
Proof.
  revert m. induction argss as [|args argss IH]; intros m Hpp; simpl.
  - split; [reflexivity|]. exists []. split; [now rewrite app_nil_r|constructor].
  - destruct (call_cached args m pp Hpp) as (Hself & Hev & _).
    destruct (call_trace_extends args m) as [evs1 H1].
    rewrite (events_since_app _ _ _ H1) in Hev.
    destruct (IH (call ext log_enabled need_back_trace args m).2)
      as (Hself' & evs2 & H2 & Hev2).
    { now rewrite Hself. }
    split; [now rewrite Hself'|].
    exists (evs1 ++ evs2). split.
    + rewrite H2, H1. now rewrite app_assoc.
    + apply Forall_app. now split.
Qed.

(** Every call that returns has emptied the names of the tensors it
    returns. *)
Lemma call_clears_names args m outs r :
  (call ext log_enabled need_back_trace args m).1 = Ok outs ->
  r ∈ outs ->
  name (store (call ext log_enabled need_back_trace args m).2 r) = "".
Proof.
  intros Hcall Hr. destruct (partial_program (self m)) as [pp|] eqn:Hpp.
  - destruct (call_cached args m pp Hpp) as (_ & _ & _ & Hout).
    destruct (Hout outs Hcall) as (st' & _ & ->).
    apply clear_names_empty. now left.
  - destruct (call_first_returned args m outs Hpp Hcall)
      as (st' & cp & pp & _ & _ & _ & _ & ->).
    apply clear_names_empty. now left.
Qed.
(** The compile branch, whatever the call comes to: a call that returns has
    run [compiled_fn], asked it for its programs and stored both; a call
    that raises has stored nothing. *)
Lemma call_first_outcome args m :
  partial_program (self m) = None ->
  match (call ext log_enabled need_back_trace args m).1 with
  | Ok outs =>
      exists st' cp pp,
        run_static_function ext (compiled_fn (self m)) args (store m)
        = (Ok outs, st')
        /\ static_get_concrete_program ext (compiled_fn (self m)) args
           = Ok (cp, pp)
        /\ self (call ext log_enabled need_back_trace args m).2
           = {| compiled_fn := compiled_fn (self m);
                partial_program := Some pp;
                concrete_program := Some cp;
                SIR := SIR (self m) |}
  | Err _ => self (call ext log_enabled need_back_trace args m).2 = self m
  end.
Proof.
  destruct m as [[fn ppo cpo sir] st tr]. simpl. intros ->.
  unfold_call. split_call; try reflexivity.
  all: eexists _, _, _; repeat split; reflexivity.
Qed.

(** With a partial program stored, the behaviour of [compiled_fn] does not
    enter the call. *)
Lemma call_cached_ignores_compiled_fn run' args m pp :
  partial_program (self m) = Some pp ->
  call {| run_static_function := run';
          static_get_concrete_program := static_get_concrete_program ext;
          run_partial_program := run_partial_program ext |}
       log_enabled need_back_trace args m
  = call ext log_enabled need_back_trace args m.
Proof.
  destruct m as [[fn ppo cpo sir] st tr]. simpl. intros ->.
  unfold_call. split_call; reflexivity.
Qed.

Lemma calls_cached_ignore_compiled_fn run' argss m pp :
  partial_program (self m) = Some pp ->
  calls {| run_static_function := run';
           static_get_concrete_program := static_get_concrete_program ext;
           run_partial_program := run_partial_program ext |}
        log_enabled need_back_trace argss m
  = calls ext log_enabled need_back_trace argss m.
Proof.
  revert m. induction argss as [|args argss IH]; intros m Hpp; simpl.
  - reflexivity.
  - rewrite (call_cached_ignores_compiled_fn run' args m pp Hpp).
    apply IH. destruct (call_cached args m pp Hpp) as (-> & _). exact Hpp.
Qed.

(** The cached branch in full: result and tensors are those of the stored
    partial program, with the names of its outputs cleared. *)
Lemma call_cached_effect args m pp :
  partial_program (self m) = Some pp ->
  is_Some (concrete_program (self m)) ->
  (log_enabled 4 = true ->
   is_ok (static_get_concrete_program ext (compiled_fn (self m)) args) = true) ->
  (call ext log_enabled need_back_trace args m).1
  = (run_partial_program ext pp args (store m)).1
  /\ store (call ext log_enabled need_back_trace args m).2
     = match run_partial_program ext pp args (store m) with
       | (Ok outs, st') => clear_names outs st'
       | (Err _, st') => st'
       end.
Proof.
  destruct m as [[fn ppo cpo sir] st tr]. simpl. intros -> [cp ->] Hget.
  unfold_call. split_call; try (split; reflexivity).
  all: specialize (Hget eq_refl); discriminate.
Qed.

(** Logging at level 4 asks [compiled_fn] for its programs before the graph
    is run; when that raises, nothing else happens, apart from what the
    back trace and the level-2 logging do before. *)
Lemma call_logging_raises args m e :
  log_enabled 4 = true ->
  static_get_concrete_program ext (compiled_fn (self m)) args = Err e ->
  (call ext log_enabled need_back_trace args m).1 = Err e
  /\ self (call ext log_enabled need_back_trace args m).2 = self m
  /\ store (call ext log_enabled need_back_trace args m).2 = store m
  /\ events_since m (call ext log_enabled need_back_trace args m).2
     = (if need_back_trace then [TraceBackFrames] else [])
       ++ (if log_enabled 2 then [PrintSIR (SIR (self m))] else [])
       ++ [GetConcreteProgram (compiled_fn (self m)) args].
Proof.
  destruct m as [[fn ppo cpo sir] st tr]. simpl. intros Hlog Hget.
  unfold_call. split_call; repeat split; read_events; reflexivity.
Qed.

Lemma call_keeps_programs_together args m :
  programs_together (self m) ->
  programs_together (self (call ext log_enabled need_back_trace args m).2).
Proof.
  destruct m as [[fn ppo cpo sir] st tr]. unfold programs_together. simpl.
  intros Hm. unfold_call. destruct ppo as [pp|]; split_call;
    try destruct cpo; simpl; try exact Hm;
    split; intros _; eexists; reflexivity.
Qed.

Lemma calls_keep_programs_together argss m :
  programs_together (self m) ->
  programs_together (self (calls ext log_enabled need_back_trace argss m)).
Proof.
  revert m. induction argss as [|args argss IH]; intros m Hm; [exact Hm|].
  simpl. apply IH. now apply call_keeps_programs_together.
Qed.

Lemma init_programs_together fn sir : programs_together (init fn sir).
Proof. split; intros [? H]; discriminate H. Qed.
End WrapperFacts.




(** C10. Every call of the wrapper that returns has emptied the name of
    every tensor in the sequence it returns. *)
Theorem fallback_wrapper_clears_output_names :
  forall (RT : CompileCache.Runtime) (ext : CompileCache.Callables)
         (log_enabled : Z -> bool) (need_back_trace : bool)
         (args : CompileCache.Args) (m : CompileCache.Machine)
         (outputs : list CompileCache.ref),
    (CompileCache.call ext log_enabled need_back_trace args m).1
    = Ok outputs ->
    forall output_tensor : CompileCache.ref,
      output_tensor ∈ outputs ->
      CompileCache.name
        (CompileCache.store
           (CompileCache.call ext log_enabled need_back_trace args m).2
           output_tensor)
      = "".
Proof.
  intros RT ext log_enabled need_back_trace args m outputs Hcall r Hr.
  now apply (call_clears_names ext log_enabled need_back_trace
               args m outputs r).
Qed.

(** C10 on the toy wrapper, whose outputs name the same tensor twice. *)
Lemma fallback_wrapper_clears_output_names_witness :
  (CompileCache.call (RT := CompileCache.toy_runtime)
     CompileCache.toy_callables (fun _ => true) true [1; 2]
     CompileCache.toy_m0).1
  = Ok [0%nat; 1%nat; 0%nat]
  /\ CompileCache.name (CompileCache.toy_store 1%nat) = "generated_tensor"
  /\ CompileCache.name
       (CompileCache.store
          (CompileCache.call (RT := CompileCache.toy_runtime)
             CompileCache.toy_callables (fun _ => true) true [1; 2]
             CompileCache.toy_m0).2
          1%nat)
     = "".
Proof.
  split; [reflexivity|]. split; [reflexivity|].
  apply (fallback_wrapper_clears_output_names CompileCache.toy_runtime
           CompileCache.toy_callables (fun _ => true) true [1; 2]
           CompileCache.toy_m0
           [0%nat; 1%nat; 0%nat] eq_refl 1%nat).
  apply list_elem_of_further, list_elem_of_here.
Defined.
(* ===================================================================== *)
(** * Further properties of compile_cache.py and of the registration      *)
(* ===================================================================== *)

Section ClearNamesExtras.
Import CompileCache.

Lemma clear_names_at (output_tensors : list ref) (st : Store) (r : ref) :
  clear_names output_tensors st r
  = {| name := if bool_decide (r ∈ output_tensors) then "" else name (st r);
       payload := payload (st r) |}.
Proof.
  revert st. induction output_tensors as [|o outs IH]; intros st.
  - simpl. now destruct (st r).
  - change (clear_names (o :: outs) st) with (clear_names outs (set_name o "" st)).
    rewrite IH. unfold set_name.
    destruct (decide (r = o)) as [->|Hne]; simpl.
    + rewrite (bool_decide_eq_true_2 (o ∈ o :: outs)) by apply list_elem_of_here.
      now destruct (bool_decide (o ∈ outs)).
    + destruct (bool_decide (r ∈ outs)) eqn:Hin.
      * apply bool_decide_eq_true in Hin.
        rewrite bool_decide_eq_true_2; [reflexivity|].
        now apply list_elem_of_further.
      * apply bool_decide_eq_false in Hin.
        rewrite bool_decide_eq_false_2; [reflexivity|].
        intros [?|?]%elem_of_cons; contradiction.
Qed.
End ClearNamesExtras.

(** X1. [clear_eager_tensor_name] on a store: afterwards a tensor has the
    empty name if its reference is among the output tensors and its old name
    otherwise, and no payload has changed. *)
Theorem clear_eager_tensor_name_pointwise :
  forall (output_tensors : list CompileCache.ref) (st : CompileCache.Store)
         (r : CompileCache.ref),
    CompileCache.clear_names output_tensors st r
    = {| CompileCache.name :=
           if bool_decide (r ∈ output_tensors) then ""
           else CompileCache.name (st r);
         CompileCache.payload := CompileCache.payload (st r) |}.
Proof. apply clear_names_at. Qed.

(** X2. Clearing names does not depend on the order of the output tensors or
    on how often one is listed, clearing twice is clearing once, and clearing
    two lists one after the other is clearing their concatenation. *)
Theorem clear_eager_tensor_name_order_and_repeats :
  (forall (l1 l2 : list CompileCache.ref) (st : CompileCache.Store)
          (r : CompileCache.ref),
      (forall x, x ∈ l1 <-> x ∈ l2) ->
      CompileCache.clear_names l1 st r = CompileCache.clear_names l2 st r)
  /\ (forall (l : list CompileCache.ref) (st : CompileCache.Store)
             (r : CompileCache.ref),
        CompileCache.clear_names l (CompileCache.clear_names l st) r
        = CompileCache.clear_names l st r)
  /\ (forall (l1 l2 : list CompileCache.ref) (st : CompileCache.Store),
        CompileCache.clear_names (l1 ++ l2) st
        = CompileCache.clear_names l2 (CompileCache.clear_names l1 st)).
Proof.
  split; [|split].
  - intros l1 l2 st r Hsame. rewrite !clear_names_at.
    destruct (bool_decide (r ∈ l1)) eqn:H1.
    + apply bool_decide_eq_true in H1. apply Hsame in H1.
      now rewrite bool_decide_eq_true_2.
    + apply bool_decide_eq_false in H1.
      rewrite bool_decide_eq_false_2; [reflexivity|].
      intros H2. apply H1. now apply Hsame.
  - intros l st r. rewrite !clear_names_at. simpl.
    now destruct (bool_decide (r ∈ l)).
  - intros l1 l2 st. unfold CompileCache.clear_names. apply fold_left_app.
Qed.

Section WrapperExtras.
Import CompileCache.
Context `{RT : Runtime}.
Variable ext : Callables.
Variable log_enabled : Z -> bool.
Variable need_back_trace : bool.

Ltac open_call :=
  unfold CompileCache.call, log_do, mbind, M_bind, mret, M_ret,
    get_self, emit, lift_pure, on_store, set_programs, raise,
    clear_eager_tensor_name;
  simpl.

(** One step of the case analysis of a call: use what is known of the
    collaborators, else distinguish. *)
Ltac case_step :=
  match goal with
  | H : run_static_function ?e ?f ?a ?s = _
    |- context [run_static_function ?e ?f ?a ?s] => rewrite H
  | H : run_partial_program ?e ?p ?a ?s = _
    |- context [run_partial_program ?e ?p ?a ?s] => rewrite H
  | H : static_get_concrete_program ?e ?f ?a = _
    |- context [static_get_concrete_program ?e ?f ?a] => rewrite H
  | H : log_enabled ?l = _ |- context [log_enabled ?l] => rewrite H
  | |- context [if need_back_trace then _ else _] => destruct need_back_trace
  | |- context [log_enabled ?l] =>
      let E := fresh "Hlog" in destruct (log_enabled l) eqn:E
  | |- context [static_get_concrete_program ?e ?f ?a] =>
      let E := fresh "Hget" in
      destruct (static_get_concrete_program e f a) as [[? ?]|?] eqn:E
  | |- context [run_static_function ?e ?f ?a ?s] =>
      let E := fresh "Hrun" in
      destruct (run_static_function e f a s) as [[?|?] ?] eqn:E
  | |- context [run_partial_program ?e ?f ?a ?s] =>
      let E := fresh "Hrun" in
      destruct (run_partial_program e f a s) as [[?|?] ?] eqn:E
  end; simpl.

Ltac case_call := repeat case_step.

(** The compiled function raises. *)
Lemma call_compiled_fn_raises args m e st' :
  partial_program (self m) = None ->
  (log_enabled 4 = true ->
   is_ok (static_get_concrete_program ext (compiled_fn (self m)) args) = true) ->
  run_static_function ext (compiled_fn (self m)) args (store m) = (Err e, st') ->
  (call ext log_enabled need_back_trace args m).1 = Err e
  /\ self (call ext log_enabled need_back_trace args m).2 = self m
  /\ store (call ext log_enabled need_back_trace args m).2 = st'.
Proof.
  destruct m as [[fn ppo cpo sir] st tr]. simpl. intros -> Hget Hrun.
  open_call. case_call; try (specialize (Hget eq_refl); discriminate);
    repeat split.
Qed.

(** The compiled function returns, but asking it for its programs raises
    (and logging at level 4, which would ask first, is off). *)
Lemma call_programs_raise args m outs st' e :
  partial_program (self m) = None ->
  log_enabled 4 = false ->
  run_static_function ext (compiled_fn (self m)) args (store m)
  = (Ok outs, st') ->
  static_get_concrete_program ext (compiled_fn (self m)) args = Err e ->
  (call ext log_enabled need_back_trace args m).1 = Err e
  /\ self (call ext log_enabled need_back_trace args m).2 = self m
  /\ store (call ext log_enabled need_back_trace args m).2 = st'.
Proof.
  destruct m as [[fn ppo cpo sir] st tr]. simpl. intros -> Hlog Hrun Hget.
  open_call. case_call; repeat split.
Qed.

(** Whatever a call raises was raised by one of the callables. *)
Lemma call_error_origin args m e :
  programs_together (self m) ->
  (call ext log_enabled need_back_trace args m).1 = Err e ->
  static_get_concrete_program ext (compiled_fn (self m)) args = Err e
  \/ (partial_program (self m) = None
      /\ exists st',
           run_static_function ext (compiled_fn (self m)) args (store m)
           = (Err e, st'))
  \/ (exists pp st',
        partial_program (self m) = Some pp
        /\ run_partial_program ext pp args (store m) = (Err e, st')).
Proof.
  destruct m as [[fn ppo cpo sir] st tr]. unfold programs_together. simpl.
  intros Hm. open_call. destruct ppo as [pp|]; case_call;
    try discriminate; try (intros [= <-]; eauto 10; fail).
  all: destruct cpo as [cp|]; simpl; try discriminate.
  all: destruct (proj1 Hm ltac:(eauto)); discriminate.
Qed.

(** Logging changes neither the result nor the state, when what it
    evaluates does not raise. *)
Lemma call_without_logging args m :
  programs_together (self m) ->
  is_ok (static_get_concrete_program ext (compiled_fn (self m)) args) = true ->
  (call ext log_enabled need_back_trace args m).1
  = (call ext (fun _ => false) false args m).1
  /\ self (call ext log_enabled need_back_trace args m).2
     = self (call ext (fun _ => false) false args m).2
  /\ store (call ext log_enabled need_back_trace args m).2
     = store (call ext (fun _ => false) false args m).2.
Proof.
  destruct m as [[fn ppo cpo sir] st tr]. unfold programs_together. simpl.
  intros Hm Hget. open_call. destruct ppo as [pp|]; case_call;
    try discriminate; try (repeat split; fail).
  all: destruct cpo as [cp|]; simpl; try (repeat split; fail).
  all: destruct (proj1 Hm ltac:(eauto)); discriminate.
Qed.

End WrapperExtras.

(** X3. When [compiled_fn] raises on a wrapper without a partial program
    (and level-4 logging, if on, did not raise before), [__call__] raises
    the same exception, leaves the wrapper without a partial program, so
    that the next call compiles again, and leaves the tensors as
    [compiled_fn] left them. *)
Theorem fallback_wrapper_compiled_fn_raises :
  forall (RT : CompileCache.Runtime) (ext : CompileCache.Callables)
         (log_enabled : Z -> bool) (need_back_trace : bool)
         (args : CompileCache.Args) (m : CompileCache.Machine)
         (e : CompileCache.Exn) (st' : CompileCache.Store),
    CompileCache.partial_program (CompileCache.self m) = None ->
    (log_enabled 4 = true ->
     is_ok (CompileCache.static_get_concrete_program ext
              (CompileCache.compiled_fn (CompileCache.self m)) args) = true) ->
    CompileCache.run_static_function ext
      (CompileCache.compiled_fn (CompileCache.self m)) args
      (CompileCache.store m) = (Err e, st') ->
    (CompileCache.call ext log_enabled need_back_trace args m).1 = Err e
    /\ CompileCache.self
         (CompileCache.call ext log_enabled need_back_trace args m).2
       = CompileCache.self m
    /\ CompileCache.partial_program
         (CompileCache.self
            (CompileCache.call ext log_enabled need_back_trace args m).2)
       = None
    /\ CompileCache.store
         (CompileCache.call ext log_enabled need_back_trace args m).2
       = st'.
Proof.
  intros RT ext log_enabled need_back_trace args m e st' Hpp Hget Hrun.
  destruct (call_compiled_fn_raises ext log_enabled need_back_trace
              args m e st' Hpp Hget Hrun) as (Hr & Hself & Hst).
  repeat split; try assumption. now rewrite Hself.
Qed.

(** X3 on the toy wrapper with a static function that raises. *)
Lemma fallback_wrapper_compiled_fn_raises_witness :
  (CompileCache.call (RT := CompileCache.toy_runtime)
     CompileCache.toy_callables_call_raises (fun _ => false) false [1; 2]
     CompileCache.toy_m0).1
  = Err (CompileCache.RuntimeError "call")
  /\ CompileCache.partial_program
       (CompileCache.self
          (CompileCache.call (RT := CompileCache.toy_runtime)
             CompileCache.toy_callables_call_raises (fun _ => false) false
             [1; 2] CompileCache.toy_m0).2)
     = None.
Proof.
  destruct (fallback_wrapper_compiled_fn_raises CompileCache.toy_runtime
              CompileCache.toy_callables_call_raises (fun _ => false) false
              [1; 2] CompileCache.toy_m0
              (CompileCache.RuntimeError "call") CompileCache.toy_store
              eq_refl ltac:(discriminate) eq_refl)
    as (Hr & _ & Hpp & _).
  split; [exact Hr | exact Hpp].
Defined.

(** X4. When [compiled_fn] returns but [get_concrete_program] raises (with
    level-4 logging off), [__call__] raises that exception after the graph
    has run: the wrapper still has no partial program, and the names of the
    output tensors have not been cleared. *)
Theorem fallback_wrapper_get_concrete_program_raises :
  forall (RT : CompileCache.Runtime) (ext : CompileCache.Callables)
         (log_enabled : Z -> bool) (need_back_trace : bool)
         (args : CompileCache.Args) (m : CompileCache.Machine)
         (outputs : list CompileCache.ref) (st' : CompileCache.Store)
         (e : CompileCache.Exn),
    CompileCache.partial_program (CompileCache.self m) = None ->
    log_enabled 4 = false ->
    CompileCache.run_static_function ext
      (CompileCache.compiled_fn (CompileCache.self m)) args
      (CompileCache.store m) = (Ok outputs, st') ->
    CompileCache.static_get_concrete_program ext
      (CompileCache.compiled_fn (CompileCache.self m)) args = Err e ->
    (CompileCache.call ext log_enabled need_back_trace args m).1 = Err e
    /\ CompileCache.self
         (CompileCache.call ext log_enabled need_back_trace args m).2
       = CompileCache.self m
    /\ CompileCache.store
         (CompileCache.call ext log_enabled need_back_trace args m).2
       = st'.
Proof.
  intros RT ext log_enabled need_back_trace args m outputs st' e.
  apply call_programs_raise.
Qed.

(** X4 on the toy wrapper: the output tensor 1 keeps its name. *)
Lemma fallback_wrapper_get_concrete_program_raises_witness :
  (CompileCache.call (RT := CompileCache.toy_runtime)
     CompileCache.toy_callables_programs_raise (fun _ => false) false [1; 2]
     CompileCache.toy_m0).1
  = Err (CompileCache.RuntimeError "programs")
  /\ CompileCache.name
       (CompileCache.store
          (CompileCache.call (RT := CompileCache.toy_runtime)
             CompileCache.toy_callables_programs_raise (fun _ => false) false
             [1; 2] CompileCache.toy_m0).2 1%nat)
     = "generated_tensor".
Proof.
  destruct (fallback_wrapper_get_concrete_program_raises
              CompileCache.toy_runtime
              CompileCache.toy_callables_programs_raise (fun _ => false) false
              [1; 2] CompileCache.toy_m0 [0%nat; 1%nat; 0%nat]
              CompileCache.toy_store (CompileCache.RuntimeError "programs")
              eq_refl eq_refl eq_refl eq_refl)
    as (Hr & _ & Hst).
  split; [exact Hr|]. now rewrite Hst.
Defined.

(** X5. With level-4 logging on, a call for whose arguments
    [get_concrete_program] raises, raises that same exception before the
    graph is run, whether or not the wrapper holds a partial program: the
    wrapper and the tensors are left as they were, whatever [compiled_fn]
    and the partial program would have done, and all that has happened
    before is the back trace and the level-2 print, where these are on. *)
Theorem fallback_wrapper_logging_raises_before_graph :
  forall (RT : CompileCache.Runtime) (ext : CompileCache.Callables)
         (log_enabled : Z -> bool) (need_back_trace : bool)
         (args : CompileCache.Args) (m : CompileCache.Machine)
         (e : CompileCache.Exn),
    log_enabled 4 = true ->
    CompileCache.static_get_concrete_program ext
      (CompileCache.compiled_fn (CompileCache.self m)) args = Err e ->
    (CompileCache.call ext log_enabled need_back_trace args m).1 = Err e
    /\ CompileCache.self
         (CompileCache.call ext log_enabled need_back_trace args m).2
       = CompileCache.self m
    /\ CompileCache.store
         (CompileCache.call ext log_enabled need_back_trace args m).2
       = CompileCache.store m
    /\ CompileCache.events_since m
         (CompileCache.call ext log_enabled need_back_trace args m).2
       = (if need_back_trace then [CompileCache.TraceBackFrames] else [])
         ++ (if log_enabled 2
             then [CompileCache.PrintSIR (CompileCache.SIR (CompileCache.self m))]
             else [])
         ++ [CompileCache.GetConcreteProgram
               (CompileCache.compiled_fn (CompileCache.self m)) args].
Proof.
  intros RT ext log_enabled need_back_trace args m e.
  apply call_logging_raises.
Qed.

(** X5 on the toy wrapper that already holds its partial program, whose
    outputs 0 and 1 would otherwise lose their names. *)
Lemma fallback_wrapper_logging_raises_before_graph_witness :
  CompileCache.partial_program (CompileCache.self CompileCache.toy_m1_logged)
  = Some CompileCache.toy_partial
  /\ (CompileCache.call (RT := CompileCache.toy_runtime)
        CompileCache.toy_callables_picky (fun _ => true) true []
        CompileCache.toy_m1_logged).1
     = Err (CompileCache.RuntimeError "programs")
  /\ CompileCache.store
       (CompileCache.call (RT := CompileCache.toy_runtime)
          CompileCache.toy_callables_picky (fun _ => true) true []
          CompileCache.toy_m1_logged).2
     = CompileCache.store CompileCache.toy_m1_logged.
Proof.
  split; [reflexivity|].
  destruct (fallback_wrapper_logging_raises_before_graph
              CompileCache.toy_runtime
              CompileCache.toy_callables_picky (fun _ => true) true
              [] CompileCache.toy_m1_logged
              (CompileCache.RuntimeError "programs") eq_refl eq_refl)
    as (Hr & _ & Hst & _).
  split; [exact Hr | exact Hst].
Defined.

(** X6. A wrapper created by [__init__] holds, after any sequence of calls,
    either both its concrete and its partial program or neither; and
    whatever a further call raises was raised by one of the callables it
    invokes ([get_concrete_program], [compiled_fn] on a wrapper without
    partial program, or the stored partial program): the wrapper never
    reads [main_program] off a missing concrete program. *)
Theorem fallback_wrapper_raises_only_what_callables_raise :
  forall (RT : CompileCache.Runtime) (ext : CompileCache.Callables)
         (log_enabled : Z -> bool) (need_back_trace : bool)
         (fn : CompileCache.StaticFunction) (sir : CompileCache.StatementIR)
         (st : CompileCache.Store) (tr : list CompileCache.Event)
         (argss : list CompileCache.Args),
    let m := CompileCache.calls ext log_enabled need_back_trace argss
               {| CompileCache.self := CompileCache.init fn sir;
                  CompileCache.store := st; CompileCache.trace := tr |} in
    CompileCache.programs_together (CompileCache.self m)
    /\ forall (args : CompileCache.Args) (e : CompileCache.Exn),
         (CompileCache.call ext log_enabled need_back_trace args m).1 = Err e ->
         CompileCache.static_get_concrete_program ext
           (CompileCache.compiled_fn (CompileCache.self m)) args = Err e
         \/ (CompileCache.partial_program (CompileCache.self m) = None
             /\ exists st',
                  CompileCache.run_static_function ext
                    (CompileCache.compiled_fn (CompileCache.self m)) args
                    (CompileCache.store m) = (Err e, st'))
         \/ (exists pp st',
               CompileCache.partial_program (CompileCache.self m) = Some pp
               /\ CompileCache.run_partial_program ext pp args
                    (CompileCache.store m) = (Err e, st')).
Proof.
  intros RT ext log_enabled need_back_trace fn sir st tr argss m.
  assert (Hm : CompileCache.programs_together (CompileCache.self m)).
  { apply calls_keep_programs_together, init_programs_together. }
  split; [exact Hm|]. intros args e. now apply call_error_origin.
Qed.

(** X7. Logging and back-tracing do not change what a call returns or what
    it does to the wrapper and to the tensors, as long as
    [get_concrete_program], which level-4 logging evaluates, does not raise:
    two calls that differ only in the logging configuration agree on result,
    wrapper and store. *)
Theorem fallback_wrapper_logging_is_inert :
  forall (RT : CompileCache.Runtime) (ext : CompileCache.Callables)
         (log_enabled1 log_enabled2 : Z -> bool)
         (need_back_trace1 need_back_trace2 : bool)
         (args : CompileCache.Args) (m : CompileCache.Machine),
    CompileCache.programs_together (CompileCache.self m) ->
    is_ok (CompileCache.static_get_concrete_program ext
             (CompileCache.compiled_fn (CompileCache.self m)) args) = true ->
    (CompileCache.call ext log_enabled1 need_back_trace1 args m).1
    = (CompileCache.call ext log_enabled2 need_back_trace2 args m).1
    /\ CompileCache.self
         (CompileCache.call ext log_enabled1 need_back_trace1 args m).2
       = CompileCache.self
           (CompileCache.call ext log_enabled2 need_back_trace2 args m).2
    /\ CompileCache.store
         (CompileCache.call ext log_enabled1 need_back_trace1 args m).2
       = CompileCache.store
           (CompileCache.call ext log_enabled2 need_back_trace2 args m).2.
Proof.
  intros RT ext log1 log2 nb1 nb2 args m Hm Hget.
  destruct (call_without_logging ext log1 nb1 args m Hm Hget)
    as (Hr1 & Hs1 & Hst1).
  destruct (call_without_logging ext log2 nb2 args m Hm Hget)
    as (Hr2 & Hs2 & Hst2).
  repeat split; congruence.
Qed.

(** X7 on the fresh toy wrapper, with all logging on and with all logging
    off. *)
Lemma fallback_wrapper_logging_is_inert_witness :
  (CompileCache.call (RT := CompileCache.toy_runtime)
     CompileCache.toy_callables (fun _ => true) true [1; 2]
     CompileCache.toy_m0).1
  = (CompileCache.call (RT := CompileCache.toy_runtime)
       CompileCache.toy_callables (fun _ => false) false [1; 2]
       CompileCache.toy_m0).1
  /\ CompileCache.self
       (CompileCache.call (RT := CompileCache.toy_runtime)
          CompileCache.toy_callables (fun _ => true) true [1; 2]
          CompileCache.toy_m0).2
     = CompileCache.self CompileCache.toy_m1.
Proof.
  assert (Hm : CompileCache.programs_together
                 (CompileCache.self CompileCache.toy_m0)).
  { split; intros [? H]; discriminate H. }
  destruct (fallback_wrapper_logging_is_inert CompileCache.toy_runtime
              CompileCache.toy_callables (fun _ => true) (fun _ => false)
              true false [1; 2] CompileCache.toy_m0 Hm eq_refl)
    as (Hr & Hs & _).
  split; [exact Hr | exact Hs].
Defined.

(** X9. A call that returns, returns the very references the callable it ran
    returned ([compiled_fn] on a wrapper without partial program, the stored
    partial program otherwise), and the store it leaves differs from the one
    that callable left only in the names of these tensors, which are
    empty. *)
Theorem fallback_wrapper_returns_callable_outputs :
  forall (RT : CompileCache.Runtime) (ext : CompileCache.Callables)
         (log_enabled : Z -> bool) (need_back_trace : bool)
         (args : CompileCache.Args) (m : CompileCache.Machine)
         (outputs : list CompileCache.ref),
    (CompileCache.call ext log_enabled need_back_trace args m).1
    = Ok outputs ->
    exists st',
      match CompileCache.partial_program (CompileCache.self m) with
      | None =>
          CompileCache.run_static_function ext
            (CompileCache.compiled_fn (CompileCache.self m)) args
            (CompileCache.store m)
      | Some pp =>
          CompileCache.run_partial_program ext pp args (CompileCache.store m)
      end = (Ok outputs, st')
      /\ forall r : CompileCache.ref,
           CompileCache.store
             (CompileCache.call ext log_enabled need_back_trace args m).2 r
           = {| CompileCache.name :=
                  if bool_decide (r ∈ outputs) then ""
                  else CompileCache.name (st' r);
                CompileCache.payload := CompileCache.payload (st' r) |}.
Proof.
  intros RT ext log_enabled need_back_trace args m outputs Hcall.
  destruct (CompileCache.partial_program (CompileCache.self m))
    as [pp|] eqn:Hpp.
  - destruct (call_cached ext log_enabled need_back_trace args m pp Hpp)
      as (_ & _ & _ & Hout).
    destruct (Hout outputs Hcall) as (st' & Hrun & Hst).
    exists st'. split; [exact Hrun|]. intros r. rewrite Hst.
    apply clear_names_at.
  - destruct (call_first_returned ext log_enabled need_back_trace
                args m outputs Hpp Hcall)
      as (st' & cp & pp & Hrun & _ & _ & _ & Hst).
    exists st'. split; [exact Hrun|]. intros r. rewrite Hst.
    apply clear_names_at.
Qed.

(** X9 on the fresh toy wrapper: tensor 2 is no output and keeps its name
    and payload. *)
Lemma fallback_wrapper_returns_callable_outputs_witness :
  (CompileCache.call (RT := CompileCache.toy_runtime)
     CompileCache.toy_callables (fun _ => false) false [1; 2]
     CompileCache.toy_m0).1 = Ok [0%nat; 1%nat; 0%nat]
  /\ CompileCache.store CompileCache.toy_m1 2%nat
     = CompileCache.toy_store 2%nat
  /\ CompileCache.store CompileCache.toy_m1 0%nat
     = {| CompileCache.name := ""; CompileCache.payload := 0 |}.
Proof.
  assert (Hcall : (CompileCache.call (RT := CompileCache.toy_runtime)
                     CompileCache.toy_callables (fun _ => false) false [1; 2]
                     CompileCache.toy_m0).1 = Ok [0%nat; 1%nat; 0%nat])
    by reflexivity.
  split; [exact Hcall|].
  destruct (fallback_wrapper_returns_callable_outputs
              CompileCache.toy_runtime CompileCache.toy_callables
              (fun _ => false) false [1; 2] CompileCache.toy_m0
              [0%nat; 1%nat; 0%nat] Hcall) as (st' & Hrun & Hst).
  injection Hrun as <-.
  split; [exact (Hst 2%nat) | exact (Hst 0%nat)].
Defined.

(** X10. The programs that [get_concrete_program] returned for the
    arguments of the first returning call serve every later call, whatever
    its arguments: the wrapper keeps both programs through any further
    calls, and a later call that returns has run that partial program on
    its own arguments. *)
Theorem fallback_wrapper_reuses_first_programs :
  forall (RT : CompileCache.Runtime) (ext : CompileCache.Callables)
         (log_enabled : Z -> bool) (need_back_trace : bool)
         (args1 : CompileCache.Args) (m : CompileCache.Machine)
         (outputs1 : list CompileCache.ref),
    CompileCache.partial_program (CompileCache.self m) = None ->
    (CompileCache.call ext log_enabled need_back_trace args1 m).1
    = Ok outputs1 ->
    exists cp pp,
      CompileCache.static_get_concrete_program ext
        (CompileCache.compiled_fn (CompileCache.self m)) args1 = Ok (cp, pp)
      /\ forall (argss : list CompileCache.Args) (args2 : CompileCache.Args),
           let m1 := CompileCache.calls ext log_enabled need_back_trace argss
                       (CompileCache.call ext log_enabled need_back_trace
                          args1 m).2 in
           CompileCache.partial_program (CompileCache.self m1) = Some pp
           /\ CompileCache.concrete_program (CompileCache.self m1) = Some cp
           /\ forall outputs2,
                (CompileCache.call ext log_enabled need_back_trace args2 m1).1
                = Ok outputs2 ->
                exists st',
                  CompileCache.run_partial_program ext pp args2
                    (CompileCache.store m1) = (Ok outputs2, st').
Proof.
  intros RT ext log_enabled need_back_trace args1 m outputs1 Hpp Hcall.
  destruct (call_first_returned ext log_enabled need_back_trace
              args1 m outputs1 Hpp Hcall)
    as (st1 & cp & pp & _ & Hget & Hpp1 & Hcp1 & _).
  exists cp, pp. split; [exact Hget|]. intros argss args2 m1.
  destruct (calls_cached ext log_enabled need_back_trace argss _ pp Hpp1)
    as (Hself & _).
  fold m1 in Hself.
  assert (Hpp2 : CompileCache.partial_program (CompileCache.self m1) = Some pp)
    by now rewrite Hself.
  split; [exact Hpp2|]. split; [now rewrite Hself|].
  intros outputs2 Hcall2.
  destruct (call_cached ext log_enabled need_back_trace args2 m1 pp Hpp2)
    as (_ & _ & _ & Hout).
  destruct (Hout outputs2 Hcall2) as (st' & Hrun & _). eauto.
Qed.

(** X10 on the toy wrapper: compiled for the arguments [1; 2], it serves
    [3; 4] with the same partial program. *)
Lemma fallback_wrapper_reuses_first_programs_witness :
  exists cp pp,
    CompileCache.static_get_concrete_program
      (RT := CompileCache.toy_runtime) CompileCache.toy_callables
      CompileCache.toy_static_fn [1; 2] = Ok (cp, pp)
    /\ CompileCache.partial_program (CompileCache.self CompileCache.toy_m2)
       = Some pp.
Proof.
  destruct (fallback_wrapper_reuses_first_programs CompileCache.toy_runtime
              CompileCache.toy_callables (fun _ => false) false [1; 2]
              CompileCache.toy_m0 [0%nat; 1%nat; 0%nat] eq_refl eq_refl)
    as (cp & pp & Hget & Hlater).
  exists cp, pp. split; [exact Hget|].
  destruct (Hlater [[3; 4]] [5; 6]) as (Hpp & _). exact Hpp.
Defined.

(** X11. A wrapper built by [value_fn] is fresh (no partial and no concrete
    program), wraps the function that [compile_sir] returned with fallback
    disabled, carries the SIR the context holds under the name, and the key
    that [key_fn] computes for the same context and name, under any keyword
    arguments, is the hash of the string form of that SIR. *)
Theorem value_fn_builds_fresh_wrapper_under_its_key :
  forall (RT : CompileCache.Runtime)
         (context : CompileCache.SymbolicTraceContext) (sir_name : string)
         (kwargs kwargs' : CompileCache.Kwargs)
         (w : CompileCache.FallbackWrapper),
    CompileCache.value_fn context sir_name kwargs = Ok w ->
    CompileCache.partial_program w = None
    /\ CompileCache.concrete_program w = None
    /\ CompileCache.sf_enable_fallback (CompileCache.compiled_fn w) = false
    /\ CompileCache.compile_sir context sir_name
       = Ok (CompileCache.sf_function (CompileCache.compiled_fn w))
    /\ CompileCache.get_sir context sir_name = Ok (CompileCache.SIR w)
    /\ CompileCache.key_fn context sir_name kwargs'
       = Ok (CompileCache.hash (CompileCache.str (CompileCache.SIR w))).
Proof.
  intros RT context sir_name kwargs kwargs' w Hw.
  destruct (value_fn_ok context sir_name kwargs w Hw)
    as (fn & sir & Hc & Hs & ->).
  simpl. repeat split; try assumption. now apply key_fn_ok.
Qed.

(** X11 on the toy context. *)
Lemma value_fn_builds_fresh_wrapper_under_its_key_witness :
  CompileCache.value_fn (RT := CompileCache.toy_runtime)
    CompileCache.toy_context_1 "SIR_0" CompileCache.toy_kwargs_A
  = Ok CompileCache.toy_wrapper_A
  /\ CompileCache.key_fn (RT := CompileCache.toy_runtime)
       CompileCache.toy_context_1 "SIR_0" CompileCache.toy_kwargs_B
     = Ok 49417.
Proof.
  assert (Hv : CompileCache.value_fn (RT := CompileCache.toy_runtime)
                 CompileCache.toy_context_1 "SIR_0" CompileCache.toy_kwargs_A
               = Ok CompileCache.toy_wrapper_A) by reflexivity.
  split; [exact Hv|].
  destruct (value_fn_builds_fresh_wrapper_under_its_key
              CompileCache.toy_runtime CompileCache.toy_context_1 "SIR_0"
              CompileCache.toy_kwargs_A CompileCache.toy_kwargs_B
              CompileCache.toy_wrapper_A Hv)
    as (_ & _ & _ & _ & _ & Hkey).
  rewrite Hkey. vm_compute. reflexivity.
Defined.

Section RegistrationExtras.
Import Reshard.

Lemma register_reshard_funcs_times_log n g :
  register_log (st_exec (register_reshard_funcs_times n) g)
  = register_log g ++ mjoin (replicate n seven_in_order).
Proof.
  revert g. induction n as [|n IH]; intros g.
  - simpl. now rewrite app_nil_r.
  - change (st_exec (register_reshard_funcs_times (S n)) g)
      with (st_exec (register_reshard_funcs_times n)
              (st_exec register_reshard_funcs g)).
    rewrite IH, register_reshard_funcs_exec. simpl.
    now rewrite <- app_assoc.
Qed.
End RegistrationExtras.

(** X13. [register_reshard_funcs] has no guard against being called again:
    called [n] times in a row it issues its seven registrations [n] times,
    each time in the same order, after whatever was registered before. *)
Theorem register_reshard_funcs_registers_again :
  forall (n : nat) (g : Reshard.Globals),
    Reshard.register_log
      (st_exec (Reshard.register_reshard_funcs_times n) g)
    = Reshard.register_log g
      ++ mjoin (replicate n
                  [ Reshard.PToRReshardFunction;
                    Reshard.PToRReshardFunctionCrossMesh;
                    Reshard.RToSReshardFunction;
                    Reshard.RToSReshardFunctionCrossMesh;
                    Reshard.SameStatusReshardFunction;
                    Reshard.SToRReshardFunction;
                    Reshard.SToRReshardFunctionCrossMesh ])
    /\ length (Reshard.register_log
                 (st_exec (Reshard.register_reshard_funcs_times n) g))
       = (length (Reshard.register_log g) + 7 * n)%nat.
Proof.
  intros n g. rewrite register_reshard_funcs_times_log. split; [reflexivity|].
  rewrite length_app. f_equal.
  induction n as [|n IH]; [reflexivity|].
  change (mjoin (replicate (S n) Reshard.seven_in_order))
    with (Reshard.seven_in_order
          ++ mjoin (replicate n Reshard.seven_in_order)).
  rewrite length_app, IH. simpl. lia.
Qed.
